(** * Tabela Price calculators: the financial functions of
    [src/desconto-racional/main.js], [src/unnamed/part_001] and
    [src/unnamed/part_000].

    JavaScript numbers are binary64, and the functions are embedded over
    three views of them.

    [JS] has the special values of IEEE 754 (NaN, the two infinities, the
    two zeros) and, for every other value, an exact rational: rounding,
    overflow and underflow are not in it.  It carries what does not depend
    on them: the order in which the operations run (the Newton loop, the
    loops of the schedule), the results that are special values, and the
    results at inputs where every operation is exact or nearly so.

    [B64] is binary64 itself, the primitive floating-point numbers, with
    [Math.pow] embedded only where its result is fixed.  It carries the
    results of the code where rounding decides: a rate so small that
    [1 + t] is 1, a principal so large that the tolerance of the solver is
    below one unit in the last place.

    [arredonda] bounds the relative error of each operation by 2^-53, as
    binary64 does in its normal range, and leaves the rounded result
    otherwise open.  It carries the bounds that hold for every such
    evaluation of the installment and of the total paid.

    The period count [p] is an integer ([Z]), as [parseInt] delivers it
    when the field holds a number; a NaN period count is not covered.

    The file has the numbers first, then the functions of the three source
    files, then what is proved of them: the installment and the total
    paid, exactly and under rounding, the Newton loop, the schedule, the
    inputs outside the domain, the effective rate, the coefficient, the two
    schedule modes against each other and against part_000, the solver at
    its edges, and the binary64 results. *)

From Stdlib Require Import ZArith QArith Qabs Qpower Qreduction Bool List Lia Lqa.
From Stdlib Require Import Qreals Reals.
From Stdlib Require Lra.
From Corelib Require PrimFloat SpecFloat FloatOps FloatAxioms.
Import ListNotations.

Open Scope Q_scope.

(** ** JavaScript numbers *)

Module JS.

Inductive num : Type :=
| NaN
| Inf (neg : bool)      (* Infinity, -Infinity *)
| Zero (neg : bool)     (* +0, -0 *)
| Fin (q : Q).          (* a finite value other than zero *)

(** Sign bit of a rational: [true] for the negative ones. *)
Definition Qsign (q : Q) : bool := negb (Qle_bool 0 q).

(** Finite result [q] of an operation whose sign bit is [s] when it is zero.
    The result is kept exact: it is not rounded to binary64, and it neither
    overflows to an infinity nor underflows to a zero. *)
Definition mk (s : bool) (q : Q) : num :=
  if Qeq_bool q 0 then Zero s else Fin (Qred q).

Definition ofQ (q : Q) : num := mk false q.
Definition ofZ (z : Z) : num := ofQ (inject_Z z).

Definition sgn (x : num) : bool :=
  match x with
  | NaN => false
  | Inf s => s
  | Zero s => s
  | Fin q => Qsign q
  end.

(** Unary minus. *)
Definition neg (x : num) : num :=
  match x with
  | NaN => NaN
  | Inf s => Inf (negb s)
  | Zero s => Zero (negb s)
  | Fin q => Fin (- q)
  end.

(** [x + y] *)
Definition add (x y : num) : num :=
  match x, y with
  | NaN, _ | _, NaN => NaN
  | Inf a, Inf b => if Bool.eqb a b then Inf a else NaN
  | Inf a, _ => Inf a
  | _, Inf b => Inf b
  | Zero a, Zero b => Zero (a && b)
  | Zero _, Fin q => Fin q
  | Fin q, Zero _ => Fin q
  | Fin a, Fin b => mk false (a + b)
  end.

(** [x - y] *)
Definition sub (x y : num) : num := add x (neg y).

(** [x * y] *)
Definition mul (x y : num) : num :=
  match x, y with
  | NaN, _ | _, NaN => NaN
  | Inf _, Zero _ | Zero _, Inf _ => NaN
  | Inf _, _ | _, Inf _ => Inf (xorb (sgn x) (sgn y))
  | Zero _, _ | _, Zero _ => Zero (xorb (sgn x) (sgn y))
  | Fin a, Fin b => mk (xorb (sgn x) (sgn y)) (a * b)
  end.

(** [x / y] *)
Definition div (x y : num) : num :=
  match x, y with
  | NaN, _ | _, NaN => NaN
  | Inf _, Inf _ | Zero _, Zero _ => NaN
  | Inf _, _ => Inf (xorb (sgn x) (sgn y))
  | _, Inf _ => Zero (xorb (sgn x) (sgn y))
  | Zero _, Fin _ => Zero (xorb (sgn x) (sgn y))
  | Fin _, Zero _ => Inf (xorb (sgn x) (sgn y))
  | Fin a, Fin b => mk (xorb (sgn x) (sgn y)) (a / b)
  end.

(** [Math.abs(x)] *)
Definition Math_abs (x : num) : num :=
  match x with
  | NaN => NaN
  | Inf _ => Inf false
  | Zero _ => Zero false
  | Fin q => Fin (Qabs q)
  end.

(** The rational a finite number stands for (0 for the others). *)
Definition val (x : num) : Q :=
  match x with
  | Fin q => q
  | _ => 0
  end.

(** [x > y]: false as soon as one side is NaN. *)
Definition gt (x y : num) : bool :=
  match x, y with
  | NaN, _ | _, NaN => false
  | Inf true, _ => false
  | _, Inf false => false
  | Inf false, _ => true
  | _, Inf true => true
  | _, _ => negb (Qle_bool (val x) (val y))
  end.

(** [Math.pow(x, e)] for an integer exponent [e], after the cases of
    Number::exponentiate. *)
Definition Math_pow (x : num) (e : Z) : num :=
  if (e =? 0)%Z then Fin 1 else
  match x with
  | NaN => NaN
  | Inf s =>
      if (0 <? e)%Z then Inf (s && Z.odd e) else Zero (s && Z.odd e)
  | Zero s =>
      if (0 <? e)%Z then Zero (s && Z.odd e) else Inf (s && Z.odd e)
  | Fin q => mk false (Qpower q e)
  end.

End JS.

Import JS.

(** A value returned to JavaScript: a number or [null]. *)
Inductive value : Type :=
| Number (x : num)
| Null.

(** One row of the schedule: [{mes, prestacao, juros, amortizacao, saldoDevedor}]
    in part_000, the five cells of a table row in main.js (there printed
    with [toFixed(2)]; the row keeps the numbers). *)
Record linha : Type := mkLinha {
  mes : Z;
  prestacao : num;
  juros : num;
  amortizacao : num;
  saldoDevedor : num
}.

(** The indices [1, 2, ..., p] visited by [for (i = 1; i <= p; i++)];
    empty when [p < 1]. *)
Definition indices (p : Z) : list Z :=
  map Z.of_nat (seq 1 (Z.to_nat p)).

(** ** The four closed formulas (the same text in main.js and part_001) *)

(** [(valorFinanciado * t) / (1 - Math.pow(1 + t, -p))] *)
Definition Calcular_PrestacaoMensal (valorFinanciado t : num) (p : Z) : num :=
  div (mul valorFinanciado t)
      (sub (Fin 1) (Math_pow (add (Fin 1) t) (- p))).

(** [(t * Math.pow(1 + t, p)) / (Math.pow(1 + t, p) - 1)] *)
Definition Calcular_CoeficienteFinanciamento (t : num) (p : Z) : num :=
  div (mul t (Math_pow (add (Fin 1) t) p))
      (sub (Math_pow (add (Fin 1) t) p) (Fin 1)).

(** [prestacao * p] *)
Definition Calcular_ValorPago (valorFinanciado t : num) (p : Z) : num :=
  let prestacao := Calcular_PrestacaoMensal valorFinanciado t p in
  mul prestacao (ofZ p).

(** [valorPago / Math.pow(1 + t, p)] *)
Definition Calcular_ValorCorrigido (valorPago t : num) (p : Z) : num :=
  div valorPago (Math_pow (add (Fin 1) t) p).

(** ** Newton's iteration of [Calcular_TaxaReal_MetodoNewton] *)

Definition precisao : num := Fin (1 # 1000000).
Definition estimativa_inicial : num := Fin (1 # 10).

(** [valorFinanciado - (valorPago / Math.pow(1 + estimativa, p))] *)
Definition erro_de (valorFinanciado : num) (p : Z) (valorPago estimativa : num) : num :=
  sub valorFinanciado (div valorPago (Math_pow (add (Fin 1) estimativa) p)).

(** [estimativa - erro / ((p * valorPago) / Math.pow(1 + estimativa, p + 1))] *)
Definition passo (p : Z) (valorPago estimativa erro : num) : num :=
  sub estimativa
      (div erro (div (mul (ofZ p) valorPago)
                     (Math_pow (add (Fin 1) estimativa) (p + 1)))).

(** How the [for] loop is left: its guard fails (with the estimate and the
    counter at that point) or the counter passes 1000. *)
Inductive saida : Type :=
| Convergiu (estimativa : num) (iteracoes : Z)
| NaoConvergiu (iteracoes : Z).

(** The loop [for (; Math.abs(erro) > precisao; ) { ... }]; [None] when the
    fuel runs out before the loop is left. *)
Fixpoint newton_loop (fuel : nat) (valorFinanciado : num) (p : Z) (valorPago : num)
    (estimativa erro : num) (iteracoes : Z) : option saida :=
  if gt (Math_abs erro) precisao then
    match fuel with
    | O => None
    | S fuel' =>
        let estimativa' := passo p valorPago estimativa erro in
        let erro' := erro_de valorFinanciado p valorPago estimativa' in
        let iteracoes' := (iteracoes + 1)%Z in
        if (iteracoes' >? 1000)%Z then Some (NaoConvergiu iteracoes')
        else newton_loop fuel' valorFinanciado p valorPago estimativa' erro' iteracoes'
    end
  else Some (Convergiu estimativa iteracoes).

(** The loop started as the function starts it, with fuel for 1001 rounds. *)
Definition newton (valorFinanciado : num) (p : Z) (valorPago : num) : option saida :=
  newton_loop 1001 valorFinanciado p valorPago estimativa_inicial
    (erro_de valorFinanciado p valorPago estimativa_inicial) 0.

(** ** src/desconto-racional/main.js *)

Module MainJs.

(** [var treal = estimativa * 100; return treal;] after the loop,
    [return null] from inside it. *)
Definition Calcular_TaxaReal_MetodoNewton (valorFinanciado : num) (p : Z)
    (valorPago : num) : option value :=
  match newton valorFinanciado p valorPago with
  | Some (Convergiu estimativa _) => Some (Number (mul estimativa (Fin 100)))
  | Some (NaoConvergiu _) => Some Null
  | None => None
  end.

(** The variables the schedule part of the click handler updates. *)
Record estado : Type := mkEstado {
  valorFinanciado : num;
  pt : num;
  jt : num;
  at_ : num
}.

(** The seven assignments that the down-payment block and the loop body
    share; [i] is the row's month. *)
Definition amortizar (i : Z) (t prestacao : num) (s : estado) : linha * estado :=
  let juros := mul (valorFinanciado s) t in
  let amortizacao := sub prestacao juros in
  let saldoDevedor := sub (valorFinanciado s) amortizacao in
  (mkLinha i prestacao juros amortizacao saldoDevedor,
   mkEstado saldoDevedor (add (pt s) prestacao) (add (jt s) juros)
            (add (at_ s) amortizacao)).

(** [for (var i = 1; i <= p; i++) { ...; tabelaBody.appendChild(linha); }],
    over the indices the loop visits. *)
Fixpoint schedule_loop (idx : list Z) (t prestacao : num) (s : estado)
    : list linha * estado :=
  match idx with
  | [] => ([], s)
  | i :: rest =>
      let (l, s') := amortizar i t prestacao s in
      let (ls, s'') := schedule_loop rest t prestacao s' in
      (l :: ls, s'')
  end.

(** The schedule part of the click handler (lines 11 and 88-134): the rows
    appended to the table and the totals [pt], [jt], [at].  [checked] is
    [checkbox.checked]. *)
Definition schedule (checked : bool) (valorFinanciado0 t : num) (p : Z)
    : list linha * estado :=
  let prestacao := Calcular_PrestacaoMensal valorFinanciado0 t p in
  let s0 := mkEstado valorFinanciado0 (Zero false) (Zero false) (Zero false) in
  if checked then
    let (_, s1) := amortizar 0 t prestacao s0 in
    schedule_loop (indices (p - 1)) t prestacao s1
  else
    schedule_loop (indices p) t prestacao s0.

End MainJs.

(** ** src/unnamed/part_001

    The function on numbers; the click handler of this file passes it the
    text of the input fields, which is outside this embedding. *)

Module Part001.

(** [var treal = 3.8956; return treal] after the loop. *)
Definition Calcular_TaxaReal_MetodoNewton (valorFinanciado : num) (p : Z)
    (valorPago : num) : option value :=
  match newton valorFinanciado p valorPago with
  | Some (Convergiu _ _) => Some (Number (Fin (9739 # 2500)))   (* 3.8956 *)
  | Some (NaoConvergiu _) => Some Null
  | None => None
  end.

End Part001.

(** ** src/unnamed/part_000 *)

Module Part000.

Definition NUMERO_DE_REPETICOES : Z := 96.

(** The body of [for (let mes = 1; mes <= NUMERO_DE_REPETICOES; mes++)]:
    the row is pushed, then [saldoDevedor -= amortizacao]. *)
Fixpoint tabela_loop (idx : list Z) (valorFinanciado t : num) (p : Z)
    (saldoDevedor : num) : list linha :=
  match idx with
  | [] => []
  | mes :: rest =>
      let juros := mul saldoDevedor t in
      let amortizacao := sub (Calcular_PrestacaoMensal valorFinanciado t p) juros in
      mkLinha mes (Calcular_PrestacaoMensal valorFinanciado t p) juros
              amortizacao saldoDevedor
      :: tabela_loop rest valorFinanciado t p (sub saldoDevedor amortizacao)
  end.

Definition calcularTabelaAmortizacao (valorFinanciado t : num) (p : Z) : list linha :=
  tabela_loop (indices NUMERO_DE_REPETICOES) valorFinanciado t p valorFinanciado.

End Part000.

(** * The rounds of the Newton loop *)

(** The loop guard [Math.abs(erro) > precisao]. *)
Definition guarda (erro : num) : bool := gt (Math_abs erro) precisao.

(** The estimate after [k] rounds of the loop body. *)
Fixpoint estimativa_n (valorFinanciado : num) (p : Z) (valorPago : num) (k : nat) : num :=
  match k with
  | O => estimativa_inicial
  | S k' =>
      let e := estimativa_n valorFinanciado p valorPago k' in
      passo p valorPago e (erro_de valorFinanciado p valorPago e)
  end.

(** [erro] after [k] rounds. *)
Definition erro_n (valorFinanciado : num) (p : Z) (valorPago : num) (k : nat) : num :=
  erro_de valorFinanciado p valorPago (estimativa_n valorFinanciado p valorPago k).

(** What the loop returns when entered at round [k]: the first estimate from
    [k] on, among those numbered up to 1000, that fails the guard, or
    [NaoConvergiu 1001] when all of them pass it. *)
Definition loop_post (vf : num) (p : Z) (vp : num) (k : nat) (r : option saida) : Prop :=
  match r with
  | Some (Convergiu e it) =>
      exists j : nat,
        (k <= j <= 1000)%nat /\ it = Z.of_nat j /\ e = estimativa_n vf p vp j /\
        guarda (erro_n vf p vp j) = false /\
        forall i : nat, (k <= i < j)%nat -> guarda (erro_n vf p vp i) = true
  | Some (NaoConvergiu it) =>
      it = 1001%Z /\
      forall i : nat, (k <= i <= 1000)%nat -> guarda (erro_n vf p vp i) = true
  | None => False
  end.

(** * Numbers that stand for rationals *)

(** [represents x a]: [x] is a finite number (a zero of either sign
    included) whose exact value is [a]. *)
Definition represents (x : num) (a : Q) : Prop :=
  match x with
  | Fin q => q == a /\ ~ a == 0
  | Zero _ => a == 0
  | _ => False
  end.

(** A finite number is well formed when it is not zero: zero has its own
    constructor, with the sign. *)
Definition bem_formado (x : num) : Prop :=
  match x with
  | Fin q => ~ q == 0
  | _ => True
  end.

(** * The annuity in exact terms *)

(** The installment and the balance after [k] periods as exact rationals:
    the values of the formulas, which their binary64 evaluation
    approximates. *)
Definition prestacao_exata (vf t : Q) (p : Z) : Q :=
  vf * t / (1 - (1 + t) ^ (- p)).

Definition saldo_exato (vf t : Q) (p : Z) (k : nat) : Q :=
  vf * ((1 + t) ^ p - (1 + t) ^ Z.of_nat k) / ((1 + t) ^ p - 1).

(** The default row for [last] and [nth]. *)
Definition linha_vazia : linha := mkLinha 0 NaN NaN NaN NaN.

(** * Rows compared *)

(** A row of part_000 with its balance taken after the amortization. *)
Definition fechar (l : linha) : linha :=
  mkLinha (mes l) (prestacao l) (juros l) (amortizacao l)
          (sub (saldoDevedor l) (amortizacao l)).

(** A row with its month moved by [d]. *)
Definition deslocar (d : Z) (l : linha) : linha :=
  mkLinha (mes l + d) (prestacao l) (juros l) (amortizacao l) (saldoDevedor l).

(** * The installment and the solver over binary64 *)

Module B64.

Import PrimFloat.
#[local] Open Scope float_scope.
#[local] Set Warnings "-inexact-float".

(** A value returned to JavaScript: a number or [null]. *)
Inductive value : Type :=
| Number (x : float)
| Null.

(** The period count as a number; exact below 2^53. *)
Fixpoint ofPos (n : positive) : float :=
  match n with
  | xH => 1
  | xO n' => 2 * ofPos n'
  | xI n' => 2 * ofPos n' + 1
  end.

Definition ofZ (z : Z) : float :=
  match z with
  | Z0 => 0
  | Zpos n => ofPos n
  | Zneg n => - ofPos n
  end.

(** The rational a finite binary64 number is: [m * 2^e], with its sign. *)
Definition valor (x : float) : Q :=
  match FloatOps.Prim2SF x with
  | SpecFloat.S754_finite s m e =>
      ((if s then - (1) else 1) * inject_Z (Zpos m) * 2 ^ e)%Q
  | _ => 0%Q
  end.

(** [Math.pow(x, e)] for an integer exponent [e].  Outside its special
    cases ECMAScript leaves the result to the implementation
    (implementation-approximated).  Embedded are the exponent 0 (1 by
    Number::exponentiate), the base 1 (1), and the exponents 1, -1 and 2
    taken correctly rounded, [x], [1 / x] and [x * x], which is what the
    [pow] of fdlibm returns for them.  [None] stands for every other
    case. *)
Definition Math_pow (x : float) (e : Z) : option float :=
  if x =? 1 then Some 1 else
  match e with
  | 0%Z => Some 1
  | 1%Z => Some x
  | (-1)%Z => Some (1 / x)
  | 2%Z => Some (x * x)
  | _ => None
  end.

(** [(valorFinanciado * t) / (1 - Math.pow(1 + t, -p))] *)
Definition Calcular_PrestacaoMensal (valorFinanciado t : float) (p : Z) : option float :=
  match Math_pow (1 + t) (- p) with
  | Some w => Some ((valorFinanciado * t) / (1 - w))
  | None => None
  end.

(** [prestacao * p] *)
Definition Calcular_ValorPago (valorFinanciado t : float) (p : Z) : option float :=
  match Calcular_PrestacaoMensal valorFinanciado t p with
  | Some prestacao => Some (prestacao * ofZ p)
  | None => None
  end.

Definition precisao : float := 0.000001.
Definition estimativa_inicial : float := 0.1.

(** [valorFinanciado - (valorPago / Math.pow(1 + estimativa, p))] *)
Definition erro_de (valorFinanciado : float) (p : Z) (valorPago estimativa : float)
    : option float :=
  match Math_pow (1 + estimativa) p with
  | Some w => Some (valorFinanciado - valorPago / w)
  | None => None
  end.

(** [estimativa - erro / ((p * valorPago) / Math.pow(1 + estimativa, p + 1))] *)
Definition passo (p : Z) (valorPago estimativa erro : float) : option float :=
  match Math_pow (1 + estimativa) (p + 1) with
  | Some w => Some (estimativa - erro / ((ofZ p * valorPago) / w))
  | None => None
  end.

Inductive saida : Type :=
| Convergiu (estimativa : float) (iteracoes : Z)
| NaoConvergiu (iteracoes : Z).

(** The loop [for (; Math.abs(erro) > precisao; ) { ... }]; [None] when a
    power is outside [Math_pow] or the fuel runs out. *)
Fixpoint newton_loop (fuel : nat) (valorFinanciado : float) (p : Z) (valorPago : float)
    (estimativa erro : float) (iteracoes : Z) : option saida :=
  if precisao <? abs erro then
    match fuel with
    | O => None
    | S fuel' =>
        match passo p valorPago estimativa erro with
        | Some estimativa' =>
            match erro_de valorFinanciado p valorPago estimativa' with
            | Some erro' =>
                let iteracoes' := (iteracoes + 1)%Z in
                if (iteracoes' >? 1000)%Z then Some (NaoConvergiu iteracoes')
                else newton_loop fuel' valorFinanciado p valorPago
                       estimativa' erro' iteracoes'
            | None => None
            end
        | None => None
        end
    end
  else Some (Convergiu estimativa iteracoes).

Definition newton (valorFinanciado : float) (p : Z) (valorPago : float) : option saida :=
  match erro_de valorFinanciado p valorPago estimativa_inicial with
  | Some erro => newton_loop 1001 valorFinanciado p valorPago estimativa_inicial erro 0
  | None => None
  end.

(** main.js: [var treal = estimativa * 100; return treal;] after the loop,
    [return null] from inside it. *)
Definition Calcular_TaxaReal_MetodoNewton (valorFinanciado : float) (p : Z)
    (valorPago : float) : option value :=
  match newton valorFinanciado p valorPago with
  | Some (Convergiu estimativa _) => Some (Number (estimativa * 100))
  | Some (NaoConvergiu _) => Some Null
  | None => None
  end.

End B64.

(** * Binary64 rounding as a bound on the relative error

    An operation of binary64 returns the exact result rounded to the
    nearest number, and while that result stays in the normal range (it
    neither overflows nor underflows) the relative error is at most 2^-53.
    For [Math.pow], whose accuracy ECMAScript leaves to the implementation,
    2^-52 is taken (one unit in the last place; fdlibm stays below it). *)

Definition eps64 : Q := 1 # 9007199254740992.   (* 2^-53 *)

(** [y] is [x] with a relative error of at most [eps]. *)
Definition arredonda (eps x y : Q) : Prop := Qabs (y - x) <= eps * Qabs x.

(** The results [i] of [(valorFinanciado * t) / (1 - Math.pow(1 + t, -p))]
    when each operation rounds so: [a] is [1 + t], [w] is
    [Math.pow(1 + t, -p)], [d] is [1 - w], [n] is [valorFinanciado * t] and
    [i] is [n / d]. *)
Definition prestacao_arredondada (valorFinanciado t : Q) (p : Z) (i : Q) : Prop :=
  exists a w d n : Q,
    arredonda eps64 (1 + t) a /\
    arredonda (2 * eps64) (a ^ (- p)) w /\
    arredonda eps64 (1 - w) d /\
    arredonda eps64 (valorFinanciado * t) n /\
    arredonda eps64 (n / d) i.

(** The results of [Calcular_ValorPago]: an installment [i], then
    [prestacao * p] rounded. *)
Definition valor_pago_arredondado (valorFinanciado t : Q) (p : Z) (total : Q) : Prop :=
  exists i : Q,
    prestacao_arredondada valorFinanciado t p i /\
    arredonda eps64 (i * inject_Z p) total.

(** * Lemmas on the numbers *)

Lemma represents_Qeq x a b : represents x a -> a == b -> represents x b.
Proof.
  destruct x; simpl; intros H E; try exact H.
  - rewrite <- E; exact H.
  - destruct H as [H1 H2]; split; [rewrite <- E; exact H1 | rewrite <- E; exact H2].
Qed.

Lemma represents_mk s q : represents (mk s q) q.
Proof.
  unfold mk. destruct (Qeq_bool q 0) eqn:E; simpl.
  - apply Qeq_bool_iff in E; exact E.
  - split; [apply Qred_correct |].
    intro H. apply Qeq_bool_iff in H. congruence.
Qed.

Lemma represents_ofQ q : represents (ofQ q) q.
Proof. apply represents_mk. Qed.

Lemma represents_ofZ z : represents (ofZ z) (inject_Z z).
Proof. apply represents_mk. Qed.

Lemma represents_Fin q : ~ q == 0 -> represents (Fin q) q.
Proof. intro H; simpl; split; [reflexivity | exact H]. Qed.

Lemma represents_val x a : represents x a -> val x == a.
Proof.
  destruct x; simpl; try tauto.
  intro H; rewrite H; reflexivity.
Qed.

Lemma represents_unique x a b : represents x a -> represents x b -> a == b.
Proof.
  intros Ha Hb. rewrite <- (represents_val x a Ha). apply represents_val. exact Hb.
Qed.

Lemma represents_neg x a : represents x a -> represents (neg x) (- a).
Proof.
  destruct x; simpl; try tauto.
  - intro H; rewrite H; reflexivity.
  - intros [H1 H2]; split; [rewrite H1; reflexivity |].
    intro H; apply H2. rewrite <- (Qopp_involutive a), H. reflexivity.
Qed.

Lemma represents_add x y a b :
  represents x a -> represents y b -> represents (add x y) (a + b).
Proof.
  destruct x, y; simpl; try tauto.
  - intros Ha Hb; rewrite Ha, Hb; reflexivity.
  - intros Ha [Hb1 Hb2]; split.
    + rewrite Ha, Hb1; ring.
    + rewrite Ha, Qplus_0_l; exact Hb2.
  - intros [Ha1 Ha2] Hb; split.
    + rewrite Hb, Ha1; ring.
    + rewrite Hb, Qplus_0_r; exact Ha2.
  - intros [Ha1 _] [Hb1 _].
    apply represents_Qeq with (a := q + q0); [apply represents_mk |].
    rewrite Ha1, Hb1; reflexivity.
Qed.

Lemma represents_sub x y a b :
  represents x a -> represents y b -> represents (sub x y) (a - b).
Proof.
  intros Ha Hb. unfold sub, Qminus.
  apply represents_add; [exact Ha | apply represents_neg; exact Hb].
Qed.

Lemma represents_mul x y a b :
  represents x a -> represents y b -> represents (mul x y) (a * b).
Proof.
  destruct x, y; simpl; try tauto.
  - intros Ha _; rewrite Ha; ring.
  - intros Ha _; rewrite Ha; ring.
  - intros _ Hb; rewrite Hb; ring.
  - intros [Ha1 _] [Hb1 _].
    apply represents_Qeq with (a := q * q0); [apply represents_mk |].
    rewrite Ha1, Hb1; reflexivity.
Qed.

Lemma represents_div x y a b :
  represents x a -> represents y b -> ~ b == 0 -> represents (div x y) (a / b).
Proof.
  destruct x, y; simpl; try tauto.
  - intros Ha _ _; rewrite Ha; unfold Qdiv; ring.
  - intros [Ha1 _] [Hb1 _] _.
    apply represents_Qeq with (a := q / q0); [apply represents_mk |].
    rewrite Ha1, Hb1; reflexivity.
Qed.

Lemma represents_abs x a : represents x a -> represents (Math_abs x) (Qabs a).
Proof.
  destruct x; simpl; try tauto.
  - intro H; rewrite H; reflexivity.
  - intros [H1 H2]; split; [rewrite H1; reflexivity |].
    intro H; apply H2. destruct (Qlt_le_dec a 0) as [L | L].
    + rewrite Qabs_neg in H by lra. lra.
    + rewrite Qabs_pos in H by lra. lra.
Qed.

Lemma represents_pow x a e :
  represents x a -> ~ a == 0 -> represents (Math_pow x e) (Qpower a e).
Proof.
  intros Hx Ha. unfold Math_pow.
  destruct (e =? 0)%Z eqn:E.
  - apply Z.eqb_eq in E; subst e. simpl. split; [reflexivity | discriminate].
  - destruct x; simpl in Hx; try tauto.
    destruct Hx as [H1 _].
    apply represents_Qeq with (a := Qpower q e); [apply represents_mk |].
    rewrite H1; reflexivity.
Qed.

(** [x > y] on finite numbers is the strict order of the rationals. *)
Lemma represents_gt x y a b :
  represents x a -> represents y b -> gt x y = negb (Qle_bool a b).
Proof.
  intros Hx Hy.
  pose proof (represents_val _ _ Hx) as Vx.
  pose proof (represents_val _ _ Hy) as Vy.
  assert (E : Qle_bool (val x) (val y) = Qle_bool a b).
  { destruct (Qle_bool a b) eqn:E1.
    - apply Qle_bool_iff. rewrite Vx, Vy. apply Qle_bool_iff; exact E1.
    - destruct (Qle_bool (val x) (val y)) eqn:E2; [| reflexivity].
      apply Qle_bool_iff in E2. rewrite Vx, Vy in E2.
      apply Qle_bool_iff in E2. congruence. }
  destruct x, y; simpl in Hx, Hy; try tauto; rewrite <- E; reflexivity.
Qed.

Lemma gt_true_iff x y a b :
  represents x a -> represents y b -> (gt x y = true <-> b < a).
Proof.
  intros Hx Hy. rewrite (represents_gt _ _ _ _ Hx Hy).
  rewrite negb_true_iff. split.
  - intro H. apply Qnot_le_lt. intro L. apply Qle_bool_iff in L. congruence.
  - intro H. destruct (Qle_bool a b) eqn:E; [| reflexivity].
    apply Qle_bool_iff in E. exfalso. apply (Qlt_not_le _ _ H E).
Qed.

Lemma represents_zero x a : represents x a -> a == 0 -> exists s, x = Zero s.
Proof.
  destruct x; simpl; try tauto.
  all: intros; eexists; reflexivity.
Qed.

Lemma represents_one : represents (Fin 1) 1.
Proof. apply represents_Fin; discriminate. Qed.

Create HintDb repr discriminated.
#[global] Hint Resolve represents_ofQ represents_ofZ represents_one
  represents_neg represents_add represents_sub represents_mul represents_abs : repr.

Lemma Qpower_succ_nat a (n : nat) : a ^ Z.of_nat (S n) == a * a ^ Z.of_nat n.
Proof.
  rewrite Nat2Z.inj_succ. unfold Z.succ.
  rewrite Qpower_plus' by lia. simpl (a ^ 1). ring.
Qed.

Lemma Bernoulli x (n : nat) : -1 <= x -> 1 + inject_Z (Z.of_nat n) * x <= (1 + x) ^ Z.of_nat n.
Proof.
  intro Hx. induction n as [| n IH].
  - change (1 + 0 * x <= 1). lra.
  - rewrite Qpower_succ_nat. rewrite Nat2Z.inj_succ. unfold Z.succ.
    rewrite inject_Z_plus.
    assert (Hn : 0 <= inject_Z (Z.of_nat n)).
    { change 0 with (inject_Z 0). rewrite <- Zle_Qle. lia. }
    set (k := inject_Z (Z.of_nat n)) in *. set (A := (1 + x) ^ Z.of_nat n) in *.
    change (inject_Z 1) with 1.
    nra.
Qed.

Lemma inject_Z_pos p : (1 <= p)%Z -> 1 <= inject_Z p.
Proof. intro H. change 1 with (inject_Z 1). rewrite <- Zle_Qle. exact H. Qed.

Lemma Bernoulli_Z x p : -1 <= x -> (0 <= p)%Z -> 1 + inject_Z p * x <= (1 + x) ^ p.
Proof.
  intros Hx Hp. rewrite <- (Z2Nat.id p Hp). apply Bernoulli; exact Hx.
Qed.

(** [(1+t)^p > 1] for a positive rate. *)
Lemma fator_gt_1 t p : 0 < t -> (1 <= p)%Z -> 1 < (1 + t) ^ p.
Proof.
  intros Ht Hp.
  pose proof (Bernoulli_Z t p ltac:(lra) ltac:(lia)) as B.
  pose proof (inject_Z_pos p Hp) as K. nra.
Qed.

(** [0 < (1+t)^p < 1] for a rate in (-1, 0). *)
Lemma fator_lt_1 t p : -1 < t -> t < 0 -> (1 <= p)%Z -> (1 + t) ^ p < 1.
Proof.
  intros H1 H2 Hp.
  assert (Ha : 0 < 1 + t) by lra.
  assert (Hi : (1 + t) ^ p == / (/ (1 + t)) ^ p).
  { rewrite Qinv_power, Qinv_involutive. reflexivity. }
  assert (Hb : 1 < (/ (1 + t)) ^ p).
  { assert (E : / (1 + t) == 1 + (/ (1 + t) - 1)) by ring.
    rewrite E. apply fator_gt_1; [| exact Hp].
    assert (0 < / (1 + t)) by (apply Qinv_lt_0_compat; exact Ha).
    assert ((1 + t) * / (1 + t) == 1) by (field; lra).
    nra. }
  rewrite Hi.
  assert (P : 0 < / (/ (1 + t)) ^ p) by (apply Qinv_lt_0_compat; lra).
  assert (Q1 : (/ (1 + t)) ^ p * / (/ (1 + t)) ^ p == 1) by (field; lra).
  nra.
Qed.

Lemma fator_neq_1 t p : -1 < t -> ~ t == 0 -> (1 <= p)%Z -> ~ (1 + t) ^ p == 1.
Proof.
  intros H1 H0 Hp E.
  destruct (Qlt_le_dec t 0) as [L | L].
  - pose proof (fator_lt_1 t p H1 L Hp). lra.
  - assert (0 < t). { apply Qle_lt_or_eq in L. destruct L as [L | L]; [exact L |]. exfalso; apply H0; symmetry; exact L. }
    pose proof (fator_gt_1 t p H Hp). lra.
Qed.

Lemma denominador_neq_0 a p : ~ a == 0 -> ~ a ^ p == 1 -> ~ 1 - a ^ (- p) == 0.
Proof.
  intros Ha H1 E. apply H1.
  assert (N : ~ a ^ p == 0) by (apply Qpower_not_0; exact Ha).
  rewrite Qpower_opp in E.
  assert (E1 : / a ^ p == 1) by lra.
  rewrite <- (Qinv_involutive (a ^ p)), E1. reflexivity.
Qed.

(** The installment on finite arguments is the annuity formula whenever the
    formula's two divisions are defined. *)
Lemma prestacao_represents x y a r p :
  represents x a -> represents y r ->
  ~ 1 + r == 0 -> ~ (1 + r) ^ p == 1 ->
  represents (Calcular_PrestacaoMensal x y p) (a * r / (1 - (1 + r) ^ (- p))).
Proof.
  intros Hx Hy H1 H2. unfold Calcular_PrestacaoMensal.
  apply represents_div.
  - apply represents_mul; assumption.
  - apply represents_sub; [apply represents_one |].
    apply represents_pow; [| exact H1].
    apply represents_add; [apply represents_one | exact Hy].
  - apply denominador_neq_0; assumption.
Qed.

(** At rate zero the installment is [0 / 0]. *)
Lemma prestacao_taxa_zero x y a p :
  represents x a -> represents y 0 -> Calcular_PrestacaoMensal x y p = NaN.
Proof.
  intros Hx Hy. unfold Calcular_PrestacaoMensal.
  assert (Hn : represents (mul x y) 0).
  { apply represents_Qeq with (a := a * 0); [apply represents_mul; assumption | ring]. }
  destruct (represents_zero _ _ Hn ltac:(reflexivity)) as [s Es].
  assert (Hd : represents (sub (Fin 1) (Math_pow (add (Fin 1) y) (- p))) 0).
  { apply represents_Qeq with (a := 1 - (1 + 0) ^ (- p)).
    - apply represents_sub; [apply represents_one |].
      apply represents_pow; [| discriminate].
      apply represents_add; [apply represents_one | exact Hy].
    - assert (E : 1 + 0 == 1) by ring. rewrite E, Qpower_1. ring. }
  destruct (represents_zero _ _ Hd ltac:(reflexivity)) as [s' Es'].
  rewrite Es, Es'. reflexivity.
Qed.

(** * The installment and the total paid *)

(** C1 (as amended): for a principal > 0 and periods >= 1 the installment is
    the one expression [(principal * rate) / (1 - Math.pow(1 + rate, -periods))]
    evaluated on numbers, whatever the rate: the zero rate has no guard.  At
    rate 0, of either sign, it is [0 / 0], that is NaN, and neither
    principal / periods nor any other number. *)
Theorem C1_taxa_zero_sem_guarda (vf : Q) (p : Z) (s : bool) :
  0 < vf -> (1 <= p)%Z ->
  (forall t : num,
     Calcular_PrestacaoMensal (ofQ vf) t p
     = div (mul (ofQ vf) t) (sub (Fin 1) (Math_pow (add (Fin 1) t) (- p)))) /\
  Calcular_PrestacaoMensal (ofQ vf) (ofQ 0) p = NaN /\
  Calcular_PrestacaoMensal (ofQ vf) (Zero s) p = NaN /\
  forall a : Q, ~ represents (Calcular_PrestacaoMensal (ofQ vf) (Zero s) p) a.
Proof.
  intros Hvf Hp. split; [intro t; reflexivity |].
  assert (Hz : forall y, represents y 0 -> Calcular_PrestacaoMensal (ofQ vf) y p = NaN).
  { intros y Hy. apply prestacao_taxa_zero with (a := vf); [apply represents_ofQ | exact Hy]. }
  split; [apply Hz; apply represents_ofQ |].
  assert (E : Calcular_PrestacaoMensal (ofQ vf) (Zero s) p = NaN)
    by (apply Hz; simpl; reflexivity).
  split; [exact E |].
  intros a H. rewrite E in H. exact H.
Qed.

Lemma C1_taxa_zero_sem_guarda_witness :
  (forall t : num,
     Calcular_PrestacaoMensal (ofQ 10000) t 12
     = div (mul (ofQ 10000) t) (sub (Fin 1) (Math_pow (add (Fin 1) t) (- (12))))) /\
  Calcular_PrestacaoMensal (ofQ 10000) (ofQ 0) 12 = NaN /\
  Calcular_PrestacaoMensal (ofQ 10000) (Zero true) 12 = NaN /\
  forall a : Q, ~ represents (Calcular_PrestacaoMensal (ofQ 10000) (Zero true) 12) a.
Proof.
  apply (C1_taxa_zero_sem_guarda 10000 12 true); [reflexivity | lia].
Defined.

(** C1, counterexample: at rate 0 the installment of 1000 over 12 periods
    is NaN, not 1000/12. *)
Lemma C1_taxa_zero_counterexample :
  Calcular_PrestacaoMensal (ofQ 1000) (ofQ 0) 12 = NaN /\
  ~ represents (Calcular_PrestacaoMensal (ofQ 1000) (ofQ 0) 12) (1000 / 12).
Proof. split; [reflexivity | intro H; exact H]. Qed.

(** The exact value of the annuity formula, times the periods, is at least
    the principal.  This is a fact about the formula; the binary64 result
    follows it only where the rounding in [1 - (1+t)^(-p)] is small against
    the rate. *)
Lemma total_exato_ge_principal (vf t : Q) (p : Z) :
  0 < vf -> 0 < t -> (1 <= p)%Z ->
  vf <= prestacao_exata vf t p * inject_Z p.
Proof.
  intros Hvf Ht Hp. unfold prestacao_exata.
  set (D := 1 - (1 + t) ^ (- p)).
  pose proof (inject_Z_pos p Hp) as K.
  pose proof (fator_gt_1 t p Ht Hp) as A1.
  assert (B0 : 0 < (1 + t) ^ (- p)) by (apply Qpower_0_lt; lra).
  assert (BA : (1 + t) ^ (- p) * (1 + t) ^ p == 1).
  { rewrite Qpower_opp. field. lra. }
  assert (Bb : 1 - inject_Z p * t <= (1 + t) ^ (- p)).
  { assert (I0 : 0 < / (1 + t)) by (apply Qinv_lt_0_compat; lra).
    assert (I1 : (1 + t) * / (1 + t) == 1) by (field; lra).
    pose proof (Bernoulli_Z (/ (1 + t) - 1) p ltac:(lra) ltac:(lia)) as B.
    assert (E : 1 + (/ (1 + t) - 1) == / (1 + t)) by ring.
    rewrite E, Qinv_power, <- Qpower_opp in B.
    nra. }
  assert (D0 : 0 < D) by (unfold D; nra).
  assert (D1 : D <= inject_Z p * t) by (unfold D; lra).
  apply Qle_trans with (vf * (inject_Z p * t) / D).
  - apply Qle_shift_div_l; [exact D0 | nra].
  - apply Qle_lteq; right. field. lra.
Qed.

(** C9 (as amended): the total paid is the installment times the periods,
    one multiplication, whatever the installment is, in exact arithmetic
    and in binary64 alike; and for a principal > 0, a rate in (0, 1) and
    periods >= 1 the exact value of the annuity formula times the periods
    is at least the principal. *)
Theorem C9_total_prestacao_vezes_periodos (vf t : Q) (p : Z) :
  0 < vf -> 0 < t -> t < 1 -> (1 <= p)%Z ->
  (forall x y : num,
     Calcular_ValorPago x y p = mul (Calcular_PrestacaoMensal x y p) (ofZ p)) /\
  (forall x y : PrimFloat.float,
     B64.Calcular_ValorPago x y p
     = match B64.Calcular_PrestacaoMensal x y p with
       | Some prestacao => Some (PrimFloat.mul prestacao (B64.ofZ p))
       | None => None
       end) /\
  vf <= prestacao_exata vf t p * inject_Z p.
Proof.
  intros Hvf Ht _ Hp.
  split; [intros x y; reflexivity |].
  split; [intros x y; reflexivity |].
  apply total_exato_ge_principal; assumption.
Qed.

Lemma C9_total_prestacao_vezes_periodos_witness :
  (forall x y : num,
     Calcular_ValorPago x y 12 = mul (Calcular_PrestacaoMensal x y 12) (ofZ 12)) /\
  (forall x y : PrimFloat.float,
     B64.Calcular_ValorPago x y 12
     = match B64.Calcular_PrestacaoMensal x y 12 with
       | Some prestacao => Some (PrimFloat.mul prestacao (B64.ofZ 12))
       | None => None
       end) /\
  10000 <= prestacao_exata 10000 (2 # 100) 12 * inject_Z 12.
Proof.
  apply (C9_total_prestacao_vezes_periodos 10000 (2 # 100) 12);
    [reflexivity | reflexivity | reflexivity | lia].
Defined.

(** * The installment and the total paid under rounding *)

Lemma arredonda_pos eps x y :
  0 <= x -> arredonda eps x y -> x * (1 - eps) <= y /\ y <= x * (1 + eps).
Proof.
  intros Hx H. unfold arredonda in H. rewrite (Qabs_pos x Hx) in H.
  apply Qabs_Qle_condition in H. destruct H as [L U]. split; lra.
Qed.

(** [1 - p (a - 1) / a <= a^(-p) <= 1 / a] for [a >= 1]. *)
Lemma potencia_inversa a p :
  1 <= a -> (1 <= p)%Z ->
  1 - inject_Z p * ((a - 1) / a) <= a ^ (- p) /\ a ^ (- p) <= / a /\ 0 < a ^ (- p).
Proof.
  intros Ha Hp.
  assert (I0 : 0 < / a) by (apply Qinv_lt_0_compat; lra).
  assert (I1 : a * / a == 1) by (field; lra).
  assert (I2 : / a <= 1) by nra.
  pose proof (Bernoulli_Z (/ a - 1) p ltac:(lra) ltac:(lia)) as B.
  assert (E : 1 + (/ a - 1) == / a) by ring.
  rewrite E, Qinv_power, <- Qpower_opp in B.
  assert (E2 : (a - 1) / a == 1 - / a) by (field; lra).
  split; [rewrite E2; lra |].
  assert (P : 0 < a ^ (- p)) by (apply Qpower_0_lt; lra).
  split; [| exact P].
  replace (- p)%Z with (-1 + - (p - 1))%Z by lia.
  rewrite Qpower_plus by lra.
  assert (Q1 : a ^ (- (p - 1)) <= 1).
  { rewrite Qpower_opp.
    assert (G : 1 <= a ^ (p - 1)).
    { pose proof (Bernoulli_Z (a - 1) (p - 1) ltac:(lra) ltac:(lia)) as B2.
      assert (E3 : 1 + (a - 1) == a) by ring. rewrite E3 in B2.
      assert (K : 0 <= inject_Z (p - 1))
        by (change 0 with (inject_Z 0); rewrite <- Zle_Qle; lia).
      nra. }
    assert (G0 : 0 < / a ^ (p - 1)) by (apply Qinv_lt_0_compat; lra).
    assert (G1 : a ^ (p - 1) * / a ^ (p - 1) == 1) by (field; lra).
    nra. }
  assert (Q0 : 0 < a ^ (- (p - 1))) by (apply Qpower_0_lt; lra).
  change (a ^ (-1)) with (/ a). nra.
Qed.

(** [r^(-p)] for [r] within [eps64] of 1 and [p] up to 2^20. *)
Lemma potencia_de_quase_um (r : Q) (p : Z) :
  1 - eps64 <= r -> r <= 1 + eps64 -> (1 <= p <= 1048576)%Z ->
  1 - inject_Z p * eps64 <= r ^ (- p) /\ r ^ (- p) <= 1 + 2 * inject_Z p * eps64.
Proof.
  intros R1 R2 Hp.
  pose proof (inject_Z_pos p ltac:(lia)) as K1.
  assert (K2 : inject_Z p <= 1048576).
  { change 1048576 with (inject_Z 1048576). rewrite <- Zle_Qle. lia. }
  set (k := inject_Z p) in *.
  assert (r0 : 0 < r) by (unfold eps64 in *; lra).
  assert (I0 : 0 < / r) by (apply Qinv_lt_0_compat; exact r0).
  assert (I1 : r * / r == 1) by (field; lra).
  assert (I2 : 1 - eps64 <= / r).
  { assert (G2 : (1 - eps64) * r <= 1) by (unfold eps64 in *; lra).
    assert (G3 : (1 - eps64) * r * / r <= 1 * / r)
      by (apply Qmult_le_compat_r; lra).
    assert (E : (1 - eps64) * r * / r == 1 - eps64) by (field; lra).
    rewrite E in G3. lra. }
  split.
  - pose proof (Bernoulli_Z (/ r - 1) p ltac:(lra) ltac:(lia)) as B.
    assert (E : 1 + (/ r - 1) == / r) by ring.
    rewrite E, Qinv_power, <- Qpower_opp in B. fold k in B.
    assert (G : k * (- eps64) <= k * (/ r - 1)) by (apply Qmult_le_l; lra).
    lra.
  - pose proof (Bernoulli_Z (r - 1) p ltac:(unfold eps64 in *; lra) ltac:(lia)) as B.
    assert (E : 1 + (r - 1) == r) by ring. rewrite E in B. fold k in B.
    assert (G : k * (- eps64) <= k * (r - 1)) by (apply Qmult_le_l; lra).
    assert (G2 : k * eps64 <= 1048576 * eps64)
      by (apply Qmult_le_compat_r; [lra | unfold eps64; lra]).
    assert (P0 : 0 < 1 - k * eps64) by (unfold eps64 in *; lra).
    assert (P1 : 1 - k * eps64 <= r ^ p) by lra.
    rewrite Qpower_opp.
    apply Qle_shift_inv_r; [lra |].
    apply Qle_trans with ((1 + 2 * k * eps64) * (1 - k * eps64)).
    + set (x := k * eps64) in *.
      assert (X0 : 0 <= x)
        by (unfold x; apply Qmult_le_0_compat; [lra | unfold eps64; lra]).
      assert (X1 : x <= 1 # 2) by (unfold eps64 in *; lra).
      assert (E2 : (1 + 2 * k * eps64) * (1 - x) == 1 + x * (1 - 2 * x))
        by (unfold x; ring).
      rewrite E2.
      assert (0 <= x * (1 - 2 * x)) by (apply Qmult_le_0_compat; lra). lra.
    + apply Qmult_le_l; [unfold eps64 in *; lra | exact P1].
Qed.

(** The margin of the total over the principal against the rounding of the
    denominator, for a rate of at least 2^-25. *)
Lemma margem (t : Q) :
  (1 # 33554432) <= t ->
  2 * eps64 * (1 + eps64) * ((1 + t) * (1 + eps64))
  <= t * ((1 - eps64) * (1 - eps64) * (1 - eps64)) * ((1 + t) * (1 + eps64))
     - ((1 + t) * (1 + eps64) - 1) * (1 + eps64).
Proof.
  intro Ht. unfold eps64.
  assert (H2 : (1 # 33554432) * t <= t * t) by nra.
  lra.
Qed.

(** X15: for a principal > 0, a rate of at least 2^-25 and periods >= 1,
    every total paid computed with operations that round to a relative
    error of 2^-53 (2^-52 for [Math.pow]) is at least the principal. *)
Theorem X15_total_arredondado_ge_principal (vf t T : Q) (p : Z) :
  0 < vf -> (1 # 33554432) <= t -> (1 <= p)%Z ->
  valor_pago_arredondado vf t p T -> vf <= T.
Proof.
  intros Hvf Ht Hp [i [[a [w [d [n [Ha [Hw [Hd [Hn Hi]]]]]]]] HT]].
  pose proof (inject_Z_pos p Hp) as K.
  assert (He : eps64 == 1 # 9007199254740992) by reflexivity.
  apply arredonda_pos in Ha; [| lra]. destruct Ha as [Ha1 Ha2].
  assert (A3 : 1 + 3 * eps64 <= a) by (unfold eps64 in *; lra).
  destruct (potencia_inversa a p ltac:(unfold eps64 in *; lra) Hp) as [W1 [W2 W0]].
  set (W := a ^ (- p)) in *.
  apply arredonda_pos in Hw; [| lra]. destruct Hw as [Hw1 Hw2].
  set (B := (1 + t) * (1 + eps64)) in *.
  assert (B1 : 1 < B) by (unfold B; unfold eps64; nra).
  assert (IA0 : 0 < / a) by (apply Qinv_lt_0_compat; unfold eps64 in *; lra).
  assert (IA1 : a * / a == 1) by (field; unfold eps64 in *; lra).
  assert (IB0 : 0 < / B) by (apply Qinv_lt_0_compat; lra).
  assert (IB1 : B * / B == 1) by (field; lra).
  assert (IAB : / B <= / a).
  { assert (T1 : a * / B <= 1) by nra.
    assert (T2 : / B == a * / B * / a) by (field; split; unfold eps64 in *; lra).
    rewrite T2. nra. }
  assert (X : (a - 1) / a == 1 - / a) by (field; unfold eps64 in *; lra).
  rewrite X in W1.
  (* w < 1 *)
  assert (Wlt : w <= (1 + 2 * eps64) * / a) by nra.
  assert (w1 : w < 1).
  { assert (G : (1 + 2 * eps64) * / a < a * / a) by nra. lra. }
  apply arredonda_pos in Hd; [| lra]. destruct Hd as [Hd1 Hd2].
  assert (d0 : 0 < d) by (unfold eps64 in *; nra).
  assert (VT : 0 < vf * t) by (apply Qmult_lt_0_compat; lra).
  apply arredonda_pos in Hn; [| lra]. destruct Hn as [Hn1 _].
  assert (n0 : 0 < n) by (unfold eps64 in *; nra).
  assert (nd0 : 0 < n / d) by (apply Qlt_shift_div_l; lra).
  apply arredonda_pos in Hi; [| lra]. destruct Hi as [Hi1 _].
  assert (i0 : 0 < i) by (unfold eps64 in *; nra).
  assert (ip0 : 0 <= i * inject_Z p) by nra.
  apply arredonda_pos in HT; [| exact ip0]. destruct HT as [HT1 _].
  (* the bound on d *)
  assert (IA2 : / a <= 1).
  { assert (G : / a * 1 <= / a * a) by (apply Qmult_le_l; [exact IA0 | unfold eps64 in *; lra]).
    rewrite (Qmult_comm (/ a) a), IA1 in G. lra. }
  assert (D1 : 1 - w <= inject_Z p * (1 - / B) + 2 * eps64).
  { assert (G1 : (1 - inject_Z p * (1 - / a)) * (1 - 2 * eps64) <= w).
    { apply Qle_trans with (W * (1 - 2 * eps64)); [| exact Hw1].
      apply Qmult_le_compat_r; [exact W1 | unfold eps64; lra]. }
    assert (G2 : 0 <= inject_Z p * (1 - / a)) by (apply Qmult_le_0_compat; lra).
    assert (G3 : inject_Z p * (1 - / a) <= inject_Z p * (1 - / B))
      by (apply Qmult_le_l; lra).
    set (m := inject_Z p * (1 - / a)) in *.
    set (m' := inject_Z p * (1 - / B)) in *.
    clearbody m m'. clear - G1 G2 G3. unfold eps64 in *. lra. }
  pose proof (margem t Ht) as M. fold B in M.
  set (c := (1 - eps64) * (1 - eps64) * (1 - eps64)) in *.
  assert (Br : 2 * eps64 * (1 + eps64) <= t * c - (1 - / B) * (1 + eps64)).
  { assert (G : (t * c - (1 - / B) * (1 + eps64)) * B
                == t * c * B - (B - 1) * (1 + eps64)) by (field; lra).
    assert (G2 : 2 * eps64 * (1 + eps64) * B <= (t * c - (1 - / B) * (1 + eps64)) * B)
      by (rewrite G; exact M).
    apply Qmult_le_r in G2; [exact G2 | lra]. }
  assert (D2 : d <= t * inject_Z p * c).
  { apply Qle_trans with ((1 - w) * (1 + eps64)); [exact Hd2 |].
    apply Qle_trans with ((inject_Z p * (1 - / B) + 2 * eps64) * (1 + eps64)).
    - apply Qmult_le_compat_r; [exact D1 | unfold eps64; lra].
    - assert (G : 0 <= (inject_Z p - 1) * (t * c - (1 - / B) * (1 + eps64))).
      { apply Qmult_le_0_compat; [lra |]. unfold eps64 in *. lra. }
      lra. }
  (* the chain *)
  assert (c0 : 0 < c) by (unfold c; unfold eps64; reflexivity).
  assert (S1 : vf * d <= vf * t * inject_Z p * c).
  { assert (G : vf * d <= vf * (t * inject_Z p * c))
      by (apply Qmult_le_l; [exact Hvf | exact D2]).
    assert (G' : vf * (t * inject_Z p * c) == vf * t * inject_Z p * c) by ring.
    rewrite <- G'. exact G. }
  assert (S2 : vf * t * (1 - eps64) / d <= n / d).
  { apply Qle_shift_div_l; [exact d0 |].
    assert (G : vf * t * (1 - eps64) / d * d == vf * t * (1 - eps64)) by (field; lra).
    rewrite G. assert (G' : n / d * d == n) by (field; lra). lra. }
  assert (S3 : vf <= vf * t * (1 - eps64) / d * (1 - eps64) * inject_Z p * (1 - eps64)).
  { assert (G : vf * t * (1 - eps64) / d * (1 - eps64) * inject_Z p * (1 - eps64)
                == vf * t * inject_Z p * c / d) by (unfold c; field; lra).
    rewrite G. apply Qle_shift_div_l; [exact d0 | exact S1]. }
  assert (E1 : 0 < 1 - eps64) by (unfold eps64; reflexivity).
  apply Qle_trans with (i * inject_Z p * (1 - eps64)); [| exact HT1].
  apply Qle_trans with (n / d * (1 - eps64) * inject_Z p * (1 - eps64)).
  - apply Qle_trans with (vf * t * (1 - eps64) / d * (1 - eps64) * inject_Z p * (1 - eps64));
      [exact S3 |].
    repeat (apply Qmult_le_compat_r; [| lra]). exact S2.
  - repeat (apply Qmult_le_compat_r; [| lra]). exact Hi1.
Qed.

(** X16: for a principal > 0, a rate between 2^-25 and 1 and between 1 and
    2^20 periods, every installment computed with operations that round to
    a relative error of 2^-53 (2^-52 for [Math.pow]) is the exact value of
    the annuity formula up to a relative error of 9 * 2^-53 / rate. *)
Theorem X16_prestacao_arredondada_perto_da_exata (vf t i : Q) (p : Z) :
  0 < vf -> (1 # 33554432) <= t -> t <= 1 -> (1 <= p <= 1048576)%Z ->
  prestacao_arredondada vf t p i ->
  Qabs (i - prestacao_exata vf t p) <= 9 * eps64 / t * prestacao_exata vf t p.
Proof.
  intros Hvf Ht Ht1 Hp [a [w [d [n [Ha [Hw [Hd [Hn Hi]]]]]]]].
  pose proof (inject_Z_pos p ltac:(lia)) as K1.
  set (k := inject_Z p) in *.
  set (e := eps64) in *.
  assert (He : e == 1 # 9007199254740992) by reflexivity.
  assert (e0 : 0 < e) by reflexivity.
  (* the exact quantities *)
  set (Ws := (1 + t) ^ (- p)).
  assert (Ws0 : 0 < Ws) by (apply Qpower_0_lt; lra).
  assert (WsA : Ws * (1 + t) ^ p == 1) by (unfold Ws; rewrite Qpower_opp; field; apply Qpower_not_0; lra).
  pose proof (Bernoulli_Z t p ltac:(lra) ltac:(lia)) as B. fold k in B.
  set (Ds := 1 - Ws).
  assert (K : Ws * (k * t) <= Ds).
  { assert (G : Ws * (1 + k * t) <= Ws * (1 + t) ^ p) by (apply Qmult_le_l; assumption).
    rewrite WsA in G. unfold Ds. lra. }
  assert (kt0 : 0 < k * t) by (apply Qmult_lt_0_compat; lra).
  assert (Ds0 : 0 < Ds).
  { assert (0 < Ws * (k * t)) by (apply Qmult_lt_0_compat; assumption). lra. }
  (* g = e / t *)
  set (g := e / t).
  assert (gt_ : g * t == e) by (unfold g; field; lra).
  assert (g0 : 0 < g) by (unfold g; apply Qlt_shift_div_l; lra).
  assert (g1 : g <= 1 # 268435456).
  { unfold g. apply Qle_shift_div_r; [lra |]. rewrite He. lra. }
  assert (eg : e <= g).
  { rewrite <- gt_. assert (G : g * t <= g * 1) by (apply Qmult_le_l; lra). lra. }
  assert (Kg : Ws * k * e <= Ds * g).
  { assert (G : Ws * (k * t) * g <= Ds * g) by (apply Qmult_le_compat_r; lra).
    assert (E : Ws * (k * t) * g == Ws * k * (g * t)) by ring.
    rewrite E, gt_ in G. exact G. }
  (* the rounded base *)
  apply arredonda_pos in Ha; [| lra]. destruct Ha as [Ha1 Ha2].
  set (r := a / (1 + t)).
  assert (ra : a == (1 + t) * r) by (unfold r; field; lra).
  assert (R1 : 1 - e <= r) by (unfold r; apply Qle_shift_div_l; lra).
  assert (R2 : r <= 1 + e) by (unfold r; apply Qle_shift_div_r; lra).
  destruct (potencia_de_quase_um r p R1 R2 Hp) as [P1 P2]. fold k e in P1, P2.
  set (R := r ^ (- p)) in *.
  assert (WR : a ^ (- p) == Ws * R) by (rewrite ra, Qmult_power; reflexivity).
  assert (k2 : k <= 1048576)
    by (unfold k; change 1048576 with (inject_Z 1048576); rewrite <- Zle_Qle; lia).
  assert (ke : k * e <= 1 # 8589934592).
  { assert (G : k * e <= 1048576 * e) by (apply Qmult_le_compat_r; lra).
    rewrite He in G. rewrite He. lra. }
  assert (W0 : 0 <= a ^ (- p)).
  { rewrite WR. apply Qmult_le_0_compat; lra. }
  apply arredonda_pos in Hw; [| exact W0]. destruct Hw as [Hw1 Hw2].
  rewrite WR in Hw1, Hw2.
  (* 1 - w between Ds (1 - 5 g) and Ds (1 + 3 g) *)
  assert (Wlo : Ws * (1 - 3 * (k * e)) <= w).
  { apply Qle_trans with (Ws * R * (1 - 2 * e)); [| exact Hw1].
    rewrite <- Qmult_assoc. apply Qmult_le_l; [exact Ws0 |].
    apply Qle_trans with ((1 - k * e) * (1 - 2 * e)).
    - set (x := k * e) in *. assert (e <= x) by (unfold x; assert (G : 1 * e <= k * e) by (apply Qmult_le_compat_r; lra); lra).
      assert (0 <= x * e) by (apply Qmult_le_0_compat; lra).
      assert (E : (1 - x) * (1 - 2 * e) == 1 - x - 2 * e + 2 * (x * e)) by ring. rewrite E. lra.
    - apply Qmult_le_compat_r; [exact P1 | rewrite He; lra]. }
  assert (Whi : w <= Ws * (1 + 5 * (k * e))).
  { apply Qle_trans with (Ws * R * (1 + 2 * e)); [exact Hw2 |].
    rewrite <- Qmult_assoc. apply Qmult_le_l; [exact Ws0 |].
    apply Qle_trans with ((1 + 2 * k * e) * (1 + 2 * e)).
    - apply Qmult_le_compat_r; [exact P2 | rewrite He; lra].
    - set (x := k * e) in *. assert (e <= x) by (unfold x; assert (G : 1 * e <= k * e) by (apply Qmult_le_compat_r; lra); lra).
      assert (X : x * e <= x * (1 # 4)) by (apply Qmult_le_l; [lra | rewrite He; lra]).
      assert (E : (1 + 2 * k * e) * (1 + 2 * e) == 1 + 2 * x + 2 * e + 4 * (x * e)) by (unfold x; ring).
      rewrite E. lra. }
  assert (Dlo : Ds * (1 - 5 * g) <= 1 - w).
  { assert (E : Ws * (1 + 5 * (k * e)) == Ws + 5 * (Ws * k * e)) by ring.
    rewrite E in Whi. unfold Ds in *. lra. }
  assert (Dhi : 1 - w <= Ds * (1 + 3 * g)).
  { assert (E : Ws * (1 - 3 * (k * e)) == Ws - 3 * (Ws * k * e)) by ring.
    rewrite E in Wlo. unfold Ds in *. lra. }
  assert (w1 : 0 < 1 - w).
  { assert (0 < Ds * (1 - 5 * g)) by (apply Qmult_lt_0_compat; lra). lra. }
  apply arredonda_pos in Hd; [| lra]. destruct Hd as [Hd1 Hd2].
  assert (dlo : Ds * ((1 - 5 * g) * (1 - e)) <= d).
  { apply Qle_trans with ((1 - w) * (1 - e)); [| exact Hd1].
    rewrite Qmult_assoc. apply Qmult_le_compat_r; [exact Dlo | rewrite He; lra]. }
  assert (dhi : d <= Ds * ((1 + 3 * g) * (1 + e))).
  { apply Qle_trans with ((1 - w) * (1 + e)); [exact Hd2 |].
    rewrite Qmult_assoc. apply Qmult_le_compat_r; [exact Dhi | rewrite He; lra]. }
  assert (cl0 : 0 < (1 - 5 * g) * (1 - e)) by (apply Qmult_lt_0_compat; [lra | rewrite He; lra]).
  assert (d0 : 0 < d).
  { assert (0 < Ds * ((1 - 5 * g) * (1 - e))) by (apply Qmult_lt_0_compat; assumption). lra. }
  assert (VT : 0 < vf * t) by (apply Qmult_lt_0_compat; lra).
  apply arredonda_pos in Hn; [| lra]. destruct Hn as [Hn1 Hn2].
  assert (n0 : 0 < n).
  { assert (0 < vf * t * (1 - e)) by (apply Qmult_lt_0_compat; [lra | rewrite He; lra]). lra. }
  assert (nd0 : 0 < n / d) by (apply Qlt_shift_div_l; lra).
  apply arredonda_pos in Hi; [| lra]. destruct Hi as [Hi1 Hi2].
  (* the exact installment *)
  set (I := prestacao_exata vf t p).
  assert (IE : I * Ds == vf * t) by (unfold I, prestacao_exata; fold Ws; fold Ds; field; lra).
  assert (I0 : 0 < I).
  { unfold I, prestacao_exata. fold Ws. fold Ds. apply Qlt_shift_div_l; lra. }
  (* n / d between the two bounds *)
  assert (Qhi : n / d * ((1 - 5 * g) * (1 - e)) <= I * (1 + e)).
  { assert (G1 : n / d * (Ds * ((1 - 5 * g) * (1 - e))) <= n / d * d) by (apply Qmult_le_l; assumption).
    assert (G2 : n / d * d == n) by (field; lra).
    assert (G3 : n / d * (Ds * ((1 - 5 * g) * (1 - e))) == n / d * ((1 - 5 * g) * (1 - e)) * Ds) by ring.
    assert (G4 : n / d * ((1 - 5 * g) * (1 - e)) * Ds <= I * (1 + e) * Ds).
    { rewrite <- G3. assert (E : I * (1 + e) * Ds == vf * t * (1 + e)) by (rewrite <- IE; ring). rewrite E. lra. }
    apply Qmult_le_r in G4; assumption. }
  assert (Qlo : I * (1 - e) <= n / d * ((1 + 3 * g) * (1 + e))).
  { assert (G1 : n / d * d <= n / d * (Ds * ((1 + 3 * g) * (1 + e)))) by (apply Qmult_le_l; assumption).
    assert (G2 : n / d * d == n) by (field; lra).
    assert (G3 : n / d * (Ds * ((1 + 3 * g) * (1 + e))) == n / d * ((1 + 3 * g) * (1 + e)) * Ds) by ring.
    assert (G4 : I * (1 - e) * Ds <= n / d * ((1 + 3 * g) * (1 + e)) * Ds).
    { rewrite <- G3. assert (E : I * (1 - e) * Ds == vf * t * (1 - e)) by (rewrite <- IE; ring). rewrite E. lra. }
    apply Qmult_le_r in G4; assumption. }
  assert (Eg : 9 * e / t == 9 * g) by (unfold g; field; lra).
  rewrite Eg.
  apply Qabs_Qle_condition. split.
  - (* I (1 - 9 g) <= i *)
    assert (G : I * (1 - 9 * g) <= n / d * (1 - e)).
    { assert (ch0 : 0 < (1 + 3 * g) * (1 + e)) by (apply Qmult_lt_0_compat; lra).
      apply (Qmult_le_r _ _ ((1 + 3 * g) * (1 + e)) ch0).
      apply Qle_trans with (I * (1 - e) * (1 - e)).
      - assert (E1 : I * (1 - 9 * g) * ((1 + 3 * g) * (1 + e)) == I * ((1 - 9 * g) * ((1 + 3 * g) * (1 + e)))) by ring.
        assert (E2 : I * (1 - e) * (1 - e) == I * ((1 - e) * (1 - e))) by ring.
        rewrite E1, E2. apply Qmult_le_l; [exact I0 |].
        assert (ge0 : 0 <= g * e) by (apply Qmult_le_0_compat; lra).
        assert (gg0 : 0 <= g * g) by (apply Qmult_le_0_compat; lra).
        assert (gge0 : 0 <= g * g * e) by (apply Qmult_le_0_compat; lra).
        assert (ee0 : 0 <= e * e) by (apply Qmult_le_0_compat; lra).
        assert (E3 : (1 - 9 * g) * ((1 + 3 * g) * (1 + e))
                     == 1 - 6 * g + e - 27 * (g * g) - 6 * (g * e) - 27 * (g * g * e)) by ring.
        assert (E4 : (1 - e) * (1 - e) == 1 - 2 * e + e * e) by ring.
        rewrite E3, E4. lra.
      - assert (E : n / d * (1 - e) * ((1 + 3 * g) * (1 + e)) == n / d * ((1 + 3 * g) * (1 + e)) * (1 - e)) by ring.
        rewrite E. apply Qmult_le_compat_r; [exact Qlo | rewrite He; lra]. }
    lra.
  - (* i <= I (1 + 9 g) *)
    assert (G : n / d * (1 + e) <= I * (1 + 9 * g)).
    { apply (Qmult_le_r _ _ ((1 - 5 * g) * (1 - e)) cl0).
      apply Qle_trans with (I * (1 + e) * (1 + e)).
      - assert (E : n / d * (1 + e) * ((1 - 5 * g) * (1 - e)) == n / d * ((1 - 5 * g) * (1 - e)) * (1 + e)) by ring.
        rewrite E. apply Qmult_le_compat_r; [exact Qhi | lra].
      - assert (E1 : I * (1 + 9 * g) * ((1 - 5 * g) * (1 - e)) == I * ((1 + 9 * g) * ((1 - 5 * g) * (1 - e)))) by ring.
        assert (E2 : I * (1 + e) * (1 + e) == I * ((1 + e) * (1 + e))) by ring.
        rewrite E1, E2. apply Qmult_le_l; [exact I0 |].
        assert (ge1 : g * e <= g * (1 # 268435456)) by (apply Qmult_le_l; lra).
        assert (gg1 : g * g <= g * (1 # 268435456)) by (apply Qmult_le_l; lra).
        assert (ee1 : e * e <= e * (1 # 268435456)) by (apply Qmult_le_l; lra).
        assert (gg0 : 0 <= g * g) by (apply Qmult_le_0_compat; lra).
        assert (gge0 : 0 <= g * g * e) by (apply Qmult_le_0_compat; lra).
        assert (E3 : (1 + 9 * g) * ((1 - 5 * g) * (1 - e))
                     == 1 + 4 * g - e - 45 * (g * g) - 4 * (g * e) + 45 * (g * g * e)) by ring.
        assert (E4 : (1 + e) * (1 + e) == 1 + 2 * e + e * e) by ring.
        rewrite E3, E4. lra. }
    lra.
Qed.

(** * The Newton loop *)

Lemma newton_loop_post vf p vp fuel :
  forall k : nat, (k + fuel = 1001)%nat -> (1 <= fuel)%nat ->
  loop_post vf p vp k
    (newton_loop fuel vf p vp (estimativa_n vf p vp k) (erro_n vf p vp k) (Z.of_nat k)).
Proof.
  induction fuel as [| fuel IH]; intros k Hk Hf; [lia |].
  cbn [newton_loop].
  destruct (gt (Math_abs (erro_n vf p vp k)) precisao) eqn:G.
  - destruct (Z.of_nat k + 1 >? 1000)%Z eqn:C.
    + apply Z.gtb_lt in C. simpl. split; [lia |].
      intros i Hi. assert (i = k) by lia. subst i. exact G.
    + assert (Hk' : (k < 1000)%nat).
      { destruct (Z.gtb_spec (Z.of_nat k + 1) 1000); [discriminate | lia]. }
      specialize (IH (S k) ltac:(lia) ltac:(lia)).
      replace (Z.of_nat k + 1)%Z with (Z.of_nat (S k)) by lia.
      change (passo p vp (estimativa_n vf p vp k) (erro_n vf p vp k))
        with (estimativa_n vf p vp (S k)).
      change (erro_de vf p vp (estimativa_n vf p vp (S k))) with (erro_n vf p vp (S k)).
      destruct (newton_loop fuel vf p vp (estimativa_n vf p vp (S k))
                  (erro_n vf p vp (S k)) (Z.of_nat (S k))) as [[e it | it] |];
        simpl in IH |- *.
      * destruct IH as [j [Hj [Hit [He [Hg Hall]]]]].
        exists j. repeat split; try assumption; try lia.
        intros i Hi. destruct (Nat.eq_dec i k) as [-> | N]; [exact G |].
        apply Hall. lia.
      * destruct IH as [Hit Hall]. split; [exact Hit |].
        intros i Hi. destruct (Nat.eq_dec i k) as [-> | N]; [exact G |].
        apply Hall. lia.
      * exact IH.
  - simpl. exists k. repeat split; try lia; try reflexivity.
    exact G.
Qed.

Lemma newton_post vf p vp : loop_post vf p vp 0 (newton vf p vp).
Proof.
  unfold newton. apply (newton_loop_post vf p vp 1001 0%nat); lia.
Qed.

Lemma newton_total vf p vp : exists s, newton vf p vp = Some s.
Proof.
  pose proof (newton_post vf p vp) as H.
  destruct (newton vf p vp) as [s |]; [exists s; reflexivity | contradiction].
Qed.

(** When the estimate of some round [j <= 1000] fails the guard, the loop
    returns the first such estimate. *)
Lemma newton_converge vf p vp (j : nat) :
  (j <= 1000)%nat -> guarda (erro_n vf p vp j) = false ->
  exists j' : nat,
    (j' <= j)%nat /\
    newton vf p vp = Some (Convergiu (estimativa_n vf p vp j') (Z.of_nat j')) /\
    guarda (erro_n vf p vp j') = false.
Proof.
  intros Hj G. pose proof (newton_post vf p vp) as H.
  destruct (newton vf p vp) as [[e it | it] |]; simpl in H.
  - destruct H as [j' [Hj' [Hit [He [Hg Hall]]]]].
    exists j'. subst e it. repeat split; try assumption.
    destruct (le_lt_dec j' j) as [L | L]; [exact L |].
    rewrite Hall in G by lia. discriminate.
  - destruct H as [_ Hall]. rewrite Hall in G by lia. discriminate.
  - contradiction.
Qed.

(** When every estimate up to round 1000 passes the guard, the loop is left
    through [return null], with the counter at 1001. *)
Lemma newton_nao_converge vf p vp :
  (forall i : nat, (i <= 1000)%nat -> guarda (erro_n vf p vp i) = true) ->
  newton vf p vp = Some (NaoConvergiu 1001).
Proof.
  intro Hall. pose proof (newton_post vf p vp) as H.
  destruct (newton vf p vp) as [[e it | it] |]; simpl in H.
  - destruct H as [j [Hj [_ [_ [Hg _]]]]].
    rewrite Hall in Hg by lia. discriminate.
  - destruct H as [-> _]. reflexivity.
  - contradiction.
Qed.

Lemma sub_NaN_r x : sub x NaN = NaN.
Proof. destruct x; reflexivity. Qed.

Lemma erro_de_NaN vf p vp e : vf = NaN \/ vp = NaN -> erro_de vf p vp e = NaN.
Proof.
  intros [-> | ->]; unfold erro_de; [reflexivity |].
  replace (div NaN (Math_pow (add (Fin 1) e) p)) with NaN by reflexivity.
  apply sub_NaN_r.
Qed.

(** With a NaN principal or total the guard fails at once. *)
Lemma newton_NaN (vf : num) (p : Z) (vp : num) :
  vf = NaN \/ vp = NaN ->
  guarda (erro_de vf p vp estimativa_inicial) = false /\
  newton vf p vp = Some (Convergiu estimativa_inicial 0).
Proof.
  intro H.
  assert (G : guarda (erro_n vf p vp 0) = false).
  { unfold erro_n. simpl estimativa_n. rewrite (erro_de_NaN _ _ _ _ H). reflexivity. }
  destruct (newton_converge vf p vp 0 ltac:(lia) G) as [j [Hj [E _]]].
  assert (j = 0%nat) by lia. subst j. simpl in E.
  split; [exact G | exact E].
Qed.

(** C10: when the principal or the total paid is NaN the guard is false on
    entry, no round is run, the no-convergence branch is not taken, and the
    result is 0.1 * 100 = 10 in main.js and the constant 3.8956 in
    part_001. *)
Theorem C10_NaN_tratado_como_convergido (vf : num) (p : Z) (vp : num) :
  vf = NaN \/ vp = NaN ->
  guarda (erro_de vf p vp estimativa_inicial) = false /\
  newton vf p vp = Some (Convergiu estimativa_inicial 0) /\
  MainJs.Calcular_TaxaReal_MetodoNewton vf p vp = Some (Number (Fin 10)) /\
  Part001.Calcular_TaxaReal_MetodoNewton vf p vp = Some (Number (Fin (9739 # 2500))).
Proof.
  intro H. destruct (newton_NaN vf p vp H) as [G E].
  unfold MainJs.Calcular_TaxaReal_MetodoNewton, Part001.Calcular_TaxaReal_MetodoNewton.
  rewrite E. split; [exact G |]. repeat split.
Qed.

Lemma C10_NaN_tratado_como_convergido_witness :
  MainJs.Calcular_TaxaReal_MetodoNewton NaN 12 (ofQ 11000) = Some (Number (Fin 10)) /\
  Part001.Calcular_TaxaReal_MetodoNewton (ofQ 10000) 12 NaN
    = Some (Number (Fin (9739 # 2500))).
Proof.
  split.
  - apply (C10_NaN_tratado_como_convergido NaN 12 (ofQ 11000)). left; reflexivity.
  - apply (C10_NaN_tratado_como_convergido (ofQ 10000) 12 NaN). right; reflexivity.
Defined.

(** C2 (as amended): whenever main.js's function succeeds, the value it
    returns is 100 times the estimate at which the loop stopped (a
    percentage): the estimate of some round [k <= 1000], the first one that
    fails the guard. *)
Theorem C2_taxa_em_porcentagem (vf : num) (p : Z) (vp x : num) :
  MainJs.Calcular_TaxaReal_MetodoNewton vf p vp = Some (Number x) ->
  exists k : nat,
    (k <= 1000)%nat /\
    x = mul (estimativa_n vf p vp k) (Fin 100) /\
    guarda (erro_n vf p vp k) = false /\
    (forall i : nat, (i < k)%nat -> guarda (erro_n vf p vp i) = true) /\
    (forall r : Q, represents (estimativa_n vf p vp k) r -> represents x (r * 100)).
Proof.
  unfold MainJs.Calcular_TaxaReal_MetodoNewton. intro H.
  pose proof (newton_post vf p vp) as P.
  destruct (newton vf p vp) as [[e it | it] |]; simpl in P; try discriminate.
  destruct P as [j [Hj [_ [He [Hg Hall]]]]].
  injection H as <-. subst e.
  exists j. repeat split; try assumption; try lia.
  - intros i Hi. apply Hall. lia.
  - intros r Hr. apply represents_mul; [exact Hr |].
    apply represents_Fin. discriminate.
Qed.

Lemma C2_taxa_em_porcentagem_witness :
  exists k : nat,
    (k <= 1000)%nat /\
    Fin 10 = mul (estimativa_n (ofQ 10) 1 (ofQ 11) k) (Fin 100) /\
    guarda (erro_n (ofQ 10) 1 (ofQ 11) k) = false /\
    (forall i : nat, (i < k)%nat -> guarda (erro_n (ofQ 10) 1 (ofQ 11) i) = true) /\
    (forall r : Q, represents (estimativa_n (ofQ 10) 1 (ofQ 11) k) r ->
                   represents (Fin 10) (r * 100)).
Proof.
  apply (C2_taxa_em_porcentagem (ofQ 10) 1 (ofQ 11) (Fin 10)). reflexivity.
Defined.

(** C2, counterexample: for a principal of 10 repaid by 11 after one period
    the rate is 0.1 (the error at 0.1 is zero), main.js returns 10, and
    part_001 returns 3.8956 there as it does when 12 is repaid. *)
Lemma C2_fracao_counterexample :
  erro_de (ofQ 10) 1 (ofQ 11) (ofQ (1 # 10)) = Zero false /\
  MainJs.Calcular_TaxaReal_MetodoNewton (ofQ 10) 1 (ofQ 11) = Some (Number (Fin 10)) /\
  ~ represents (Fin 10) (1 # 10) /\
  Part001.Calcular_TaxaReal_MetodoNewton (ofQ 10) 1 (ofQ 11)
    = Some (Number (Fin (9739 # 2500))) /\
  Part001.Calcular_TaxaReal_MetodoNewton (ofQ 10) 1 (ofQ 12)
    = Some (Number (Fin (9739 # 2500))).
Proof.
  repeat split; try (vm_compute; reflexivity).
  intros [H _]. discriminate H.
Qed.

(** C6 (as amended): the function always returns, a number or null.  A
    number is returned after at most 1000 rounds, at the first estimate that
    fails the guard; null is returned exactly when the estimates of rounds
    0 to 1000 all pass the guard, and then the loop body has run 1001
    times. *)
Theorem C6_limite_de_iteracoes (vf : num) (p : Z) (vp : num) :
  (exists s, newton vf p vp = Some s /\
     match s with
     | Convergiu e it =>
         (0 <= it <= 1000)%Z /\
         e = estimativa_n vf p vp (Z.to_nat it) /\
         guarda (erro_de vf p vp e) = false /\
         MainJs.Calcular_TaxaReal_MetodoNewton vf p vp
           = Some (Number (mul e (Fin 100))) /\
         Part001.Calcular_TaxaReal_MetodoNewton vf p vp
           = Some (Number (Fin (9739 # 2500)))
     | NaoConvergiu it =>
         it = 1001%Z /\
         (forall i : nat, (i <= 1000)%nat -> guarda (erro_n vf p vp i) = true) /\
         MainJs.Calcular_TaxaReal_MetodoNewton vf p vp = Some Null /\
         Part001.Calcular_TaxaReal_MetodoNewton vf p vp = Some Null
     end) /\
  ((forall i : nat, (i <= 1000)%nat -> guarda (erro_n vf p vp i) = true) ->
   MainJs.Calcular_TaxaReal_MetodoNewton vf p vp = Some Null /\
   Part001.Calcular_TaxaReal_MetodoNewton vf p vp = Some Null).
Proof.
  unfold MainJs.Calcular_TaxaReal_MetodoNewton, Part001.Calcular_TaxaReal_MetodoNewton.
  split.
  - pose proof (newton_post vf p vp) as P.
    destruct (newton vf p vp) as [[e it | it] |]; simpl in P; [| | contradiction].
    + exists (Convergiu e it). split; [reflexivity |].
      destruct P as [j [Hj [Hit [He [Hg _]]]]]. subst it e.
      rewrite Nat2Z.id. repeat split; try lia. exact Hg.
    + exists (NaoConvergiu it). split; [reflexivity |].
      destruct P as [Hit Hall]. repeat split; try assumption.
      intros i Hi. apply Hall. lia.
  - intro Hall. rewrite (newton_nao_converge vf p vp Hall). split; reflexivity.
Qed.

(** An input on which no estimate passes: principal 1, one period, total
    paid 0.  From the first round on the estimate is -Infinity and the
    error is 1. *)
Lemma nao_converge_estimativa (i : nat) :
  estimativa_n (ofQ 1) 1 (ofQ 0) (S i) = Inf true.
Proof.
  induction i as [| i IH]; [vm_compute; reflexivity |].
  cbn [estimativa_n] in IH |- *. rewrite IH. vm_compute. reflexivity.
Qed.

Lemma nao_converge_guarda (i : nat) : guarda (erro_n (ofQ 1) 1 (ofQ 0) i) = true.
Proof.
  unfold erro_n. destruct i as [| i]; [vm_compute; reflexivity |].
  rewrite nao_converge_estimativa. vm_compute. reflexivity.
Qed.

Lemma C6_limite_de_iteracoes_witness :
  MainJs.Calcular_TaxaReal_MetodoNewton (ofQ 1) 1 (ofQ 0) = Some Null /\
  Part001.Calcular_TaxaReal_MetodoNewton (ofQ 1) 1 (ofQ 0) = Some Null.
Proof.
  apply (C6_limite_de_iteracoes (ofQ 1) 1 (ofQ 0)).
  intros i _. apply nao_converge_guarda.
Defined.

(** C6, counterexample: with a principal of 1, one period and nothing paid
    the loop body runs 1001 times before null is returned. *)
Lemma C6_mil_e_uma_counterexample :
  newton (ofQ 1) 1 (ofQ 0) = Some (NaoConvergiu 1001) /\
  MainJs.Calcular_TaxaReal_MetodoNewton (ofQ 1) 1 (ofQ 0) = Some Null /\
  ~ (1001 <= 1000)%Z.
Proof.
  repeat split; try (vm_compute; reflexivity). lia.
Qed.

(** * The schedule *)

Section Price.

Variables (vf t : Q) (p : Z).
Hypothesis Hvf : 0 < vf.
Hypothesis Ht : 0 < t.
Hypothesis Hp : (1 <= p)%Z.

Let A := (1 + t) ^ p.

Lemma A_gt_1 : 1 < A.
Proof. apply fator_gt_1; assumption. Qed.

Lemma prestacao_exata_alt : prestacao_exata vf t p == vf * t * A / (A - 1).
Proof.
  unfold prestacao_exata. rewrite Qpower_opp. fold A.
  pose proof A_gt_1. field. split; lra.
Qed.

Lemma saldo_exato_0 : saldo_exato vf t p 0 == vf.
Proof.
  unfold saldo_exato. fold A. change ((1 + t) ^ Z.of_nat 0) with 1.
  pose proof A_gt_1. field. lra.
Qed.

Lemma saldo_exato_S k :
  saldo_exato vf t p (S k)
  == saldo_exato vf t p k - (prestacao_exata vf t p - saldo_exato vf t p k * t).
Proof.
  rewrite prestacao_exata_alt. unfold saldo_exato. fold A.
  rewrite Qpower_succ_nat.
  pose proof A_gt_1. field. lra.
Qed.

Lemma saldo_exato_final : saldo_exato vf t p (Z.to_nat p) == 0.
Proof.
  unfold saldo_exato. rewrite Z2Nat.id by lia. fold A.
  pose proof A_gt_1. field. lra.
Qed.

Lemma amortizacao_positiva k :
  0 < prestacao_exata vf t p - saldo_exato vf t p k * t.
Proof.
  rewrite prestacao_exata_alt. unfold saldo_exato. fold A.
  pose proof A_gt_1 as HA.
  assert (Hk : 0 < (1 + t) ^ Z.of_nat k) by (apply Qpower_0_lt; lra).
  set (ak := (1 + t) ^ Z.of_nat k) in *.
  assert (E : vf * t * A / (A - 1) - vf * (A - ak) / (A - 1) * t
              == vf * t * ak / (A - 1)) by (field; lra).
  rewrite E.
  assert (P1 : 0 < vf * t) by (apply Qmult_lt_0_compat; assumption).
  assert (P2 : 0 < vf * t * ak) by (apply Qmult_lt_0_compat; assumption).
  apply Qlt_shift_div_l; lra.
Qed.

Lemma prestacao_exata_represents :
  represents (Calcular_PrestacaoMensal (ofQ vf) (ofQ t) p) (prestacao_exata vf t p).
Proof.
  apply prestacao_represents; try apply represents_ofQ.
  - lra.
  - apply fator_neq_1; [lra | lra | exact Hp].
Qed.

End Price.

Section TabelaPart000.

Variables (vf t : Q) (p : Z).
Hypothesis Hvf : 0 < vf.
Hypothesis Ht : 0 < t.
Hypothesis Hp : (1 <= p)%Z.

(** Row [i] (counted from 0) shows the balance after [k + i] periods and
    amortizes the installment less the interest on that balance. *)
Lemma tabela_loop_linha (idx : list Z) :
  forall (k : nat) (saldo : num),
  represents saldo (saldo_exato vf t p k) ->
  forall i : nat, (i < length idx)%nat ->
  let l := nth i (Part000.tabela_loop idx (ofQ vf) (ofQ t) p saldo) linha_vazia in
  represents (saldoDevedor l) (saldo_exato vf t p (k + i)) /\
  represents (amortizacao l)
             (prestacao_exata vf t p - saldo_exato vf t p (k + i) * t).
Proof.
  induction idx as [| m idx IH]; intros k saldo Hs i Hi; [simpl in Hi; lia |].
  cbn [Part000.tabela_loop].
  pose proof (prestacao_exata_represents vf t p Ht Hp) as HP.
  destruct i as [| i].
  - cbn [nth saldoDevedor amortizacao]. rewrite Nat.add_0_r. auto with repr.
  - cbn [nth]. replace (k + S i)%nat with (S k + i)%nat by lia.
    apply IH; [| simpl in Hi; lia].
    apply represents_Qeq
      with (a := saldo_exato vf t p k - (prestacao_exata vf t p - saldo_exato vf t p k * t));
      [auto with repr |].
    symmetry. apply saldo_exato_S; assumption.
Qed.

End TabelaPart000.

Lemma indices_length p : length (indices p) = Z.to_nat p.
Proof. unfold indices. rewrite length_map, length_seq. reflexivity. Qed.

Lemma schedule_loop_meses idx t pr s :
  map mes (fst (MainJs.schedule_loop idx t pr s)) = idx.
Proof.
  revert s. induction idx as [| i rest IH]; intro s; [reflexivity |].
  cbn [MainJs.schedule_loop].
  destruct (MainJs.amortizar i t pr s) as [l s1] eqn:E1.
  specialize (IH s1).
  destruct (MainJs.schedule_loop rest t pr s1) as [ls s2].
  cbn [fst map] in IH |- *. rewrite IH.
  unfold MainJs.amortizar in E1. injection E1 as <- _. reflexivity.
Qed.

Lemma tabela_loop_meses idx vf t p s :
  map mes (Part000.tabela_loop idx vf t p s) = idx.
Proof.
  revert s. induction idx as [| i rest IH]; intro s; [reflexivity |].
  cbn [Part000.tabela_loop map mes]. rewrite IH. reflexivity.
Qed.

(** C3: what the two generators do.  The loop of main.js appends one row
    per index 1..p (1..p-1 after a down payment); the table of part_000 has
    the rows 1..96 whatever [p] is, so with 12 periods it has 96 rows. *)
Theorem C3_numero_de_linhas (vf t : num) (p : Z) :
  map mes (Part000.calcularTabelaAmortizacao vf t p) = indices 96 /\
  length (Part000.calcularTabelaAmortizacao vf t p) = 96%nat /\
  map mes (fst (MainJs.schedule false vf t p)) = indices p /\
  length (fst (MainJs.schedule false vf t p)) = Z.to_nat p /\
  map mes (fst (MainJs.schedule true vf t p)) = indices (p - 1).
Proof.
  assert (H0 : map mes (Part000.calcularTabelaAmortizacao vf t p) = indices 96)
    by apply tabela_loop_meses.
  assert (H1 : map mes (fst (MainJs.schedule false vf t p)) = indices p)
    by apply schedule_loop_meses.
  split; [exact H0 |].
  split; [rewrite <- (length_map mes), H0; reflexivity |].
  split; [exact H1 |].
  split; [rewrite <- (length_map mes), H1; apply indices_length |].
  unfold MainJs.schedule.
  destruct (MainJs.amortizar 0 t (Calcular_PrestacaoMensal vf t p)
              (MainJs.mkEstado vf (Zero false) (Zero false) (Zero false))) as [l s1].
  apply schedule_loop_meses.
Qed.

(** C4: what part_000 does where the claim fails.  With 1000 at 10% over
    96 periods its 96 rows start with a row that shows 1000, the balance
    before that row's amortization, and end with a row that shows a balance
    above 90, not one within 0.01 of zero. *)
Theorem C4_part000_saldo_de_abertura :
  let rows := Part000.calcularTabelaAmortizacao (ofQ 1000) (ofQ (1 # 10)) 96 in
  let primeira := nth 0 rows linha_vazia in
  let ultima := nth 95 rows linha_vazia in
  length rows = 96%nat /\
  (exists a : Q,
     represents (amortizacao primeira) a /\ 0 < a /\
     represents (saldoDevedor primeira) 1000 /\
     ~ represents (saldoDevedor primeira) (1000 - a)) /\
  (exists s : Q, represents (saldoDevedor ultima) s /\ 90 < s).
Proof.
  intros rows primeira ultima.
  assert (Hvf : 0 < 1000) by reflexivity.
  assert (Ht : 0 < 1 # 10) by reflexivity.
  assert (Hp : (1 <= 96)%Z) by lia.
  pose proof (saldo_exato_0 1000 (1 # 10) 96 Ht Hp) as E0.
  assert (H0 : represents (ofQ 1000) (saldo_exato 1000 (1 # 10) 96 0))
    by (apply represents_Qeq with (a := 1000); [apply represents_ofQ | symmetry; exact E0]).
  assert (L : forall i : nat, (i < 96)%nat ->
              (i < length (indices Part000.NUMERO_DE_REPETICOES))%nat)
    by (intros i Hi; rewrite indices_length; exact Hi).
  split; [| split].
  - unfold rows. rewrite <- (length_map mes).
    unfold Part000.calcularTabelaAmortizacao. rewrite tabela_loop_meses.
    apply indices_length.
  - destruct (tabela_loop_linha 1000 (1 # 10) 96 Ht Hp
                (indices Part000.NUMERO_DE_REPETICOES) 0 (ofQ 1000) H0 0
                (L 0%nat ltac:(lia))) as [Hs Ha].
    pose proof (amortizacao_positiva 1000 (1 # 10) 96 Hvf Ht Hp 0) as Pos.
    cbn [Nat.add] in Hs, Ha.
    set (a := prestacao_exata 1000 (1 # 10) 96 - saldo_exato 1000 (1 # 10) 96 0 * (1 # 10))
      in *.
    assert (Hs' : represents (saldoDevedor primeira) 1000).
    { unfold primeira, rows, Part000.calcularTabelaAmortizacao.
      apply represents_Qeq with (a := saldo_exato 1000 (1 # 10) 96 0);
        [exact Hs | exact E0]. }
    exists a. split; [unfold primeira, rows, Part000.calcularTabelaAmortizacao; exact Ha |].
    split; [exact Pos |]. split; [exact Hs' |].
    intro Hc. pose proof (represents_unique _ _ _ Hs' Hc) as U.
    clearbody a. clear - U Pos. lra.
  - exists (saldo_exato 1000 (1 # 10) 96 95). split.
    + destruct (tabela_loop_linha 1000 (1 # 10) 96 Ht Hp
                  (indices Part000.NUMERO_DE_REPETICOES) 0 (ofQ 1000) H0 95
                  (L 95%nat ltac:(lia))) as [Hs _].
      cbn [Nat.add] in Hs.
      unfold ultima, rows, Part000.calcularTabelaAmortizacao. exact Hs.
    + vm_compute. reflexivity.
Qed.

(** * Inputs outside the domain *)

Lemma amortizar_NaN i t pr s :
  MainJs.valorFinanciado s = NaN ->
  saldoDevedor (fst (MainJs.amortizar i t pr s)) = NaN /\
  MainJs.valorFinanciado (snd (MainJs.amortizar i t pr s)) = NaN.
Proof.
  intro H. unfold MainJs.amortizar. cbn [fst snd saldoDevedor MainJs.valorFinanciado].
  rewrite H. split; reflexivity.
Qed.

Lemma schedule_loop_NaN idx t pr :
  forall s, MainJs.valorFinanciado s = NaN ->
  forall l, In l (fst (MainJs.schedule_loop idx t pr s)) -> saldoDevedor l = NaN.
Proof.
  induction idx as [| i idx IH]; intros s Hs l Hin; [contradiction |].
  cbn [MainJs.schedule_loop] in Hin.
  pose proof (amortizar_NaN i t pr s Hs) as [H1 H2].
  destruct (MainJs.amortizar i t pr s) as [l1 s1].
  specialize (IH s1 H2).
  destruct (MainJs.schedule_loop idx t pr s1) as [ls s2].
  cbn [fst snd] in *. destruct Hin as [<- | Hin]; [exact H1 | apply IH; exact Hin].
Qed.

(** ** The sign of the principal *)

Lemma bem_formado_mk s q : bem_formado (mk s q).
Proof.
  unfold mk. destruct (Qeq_bool q 0) eqn:E; simpl; [exact I |].
  rewrite Qred_correct. intro H. apply Qeq_bool_iff in H. congruence.
Qed.

Lemma Qsign_opp q : ~ q == 0 -> Qsign (- q) = negb (Qsign q).
Proof.
  intro H. unfold Qsign. rewrite negb_involutive.
  destruct (Qle_bool 0 q) eqn:A; destruct (Qle_bool 0 (- q)) eqn:B; try reflexivity.
  - apply Qle_bool_iff in A, B. exfalso. apply H. lra.
  - exfalso.
    assert (A' : ~ 0 <= q) by (intro K; apply Qle_bool_iff in K; congruence).
    assert (B' : ~ 0 <= - q) by (intro K; apply Qle_bool_iff in K; congruence).
    lra.
Qed.

Lemma mk_opp s q : mk (negb s) (- q) = neg (mk s q).
Proof.
  unfold mk.
  assert (E : Qeq_bool (- q) 0 = Qeq_bool q 0).
  { destruct (Qeq_bool q 0) eqn:A.
    - apply Qeq_bool_iff in A. apply Qeq_bool_iff. lra.
    - destruct (Qeq_bool (- q) 0) eqn:B; [| reflexivity].
      apply Qeq_bool_iff in B. assert (K : q == 0) by lra.
      apply Qeq_bool_iff in K. congruence. }
  rewrite E. destruct (Qeq_bool q 0); cbn [neg]; [reflexivity |].
  rewrite Qred_opp. reflexivity.
Qed.

Lemma mk_Qeq s q q' : q == q' -> mk s q = mk s q'.
Proof.
  intro E. unfold mk.
  assert (B : Qeq_bool q 0 = Qeq_bool q' 0).
  { destruct (Qeq_bool q 0) eqn:A1; destruct (Qeq_bool q' 0) eqn:A2; try reflexivity.
    - apply Qeq_bool_iff in A1. assert (K : q' == 0) by lra. apply Qeq_bool_iff in K. congruence.
    - apply Qeq_bool_iff in A2. assert (K : q == 0) by lra. apply Qeq_bool_iff in K. congruence. }
  rewrite B. destruct (Qeq_bool q' 0); [reflexivity |].
  rewrite (Qred_complete q q' E). reflexivity.
Qed.

Lemma sgn_neg x : bem_formado x -> x <> NaN -> sgn (neg x) = negb (sgn x).
Proof.
  destruct x; simpl; intros H N; try reflexivity; [congruence |].
  apply Qsign_opp. exact H.
Qed.

Lemma xorb_negb_l a b : xorb (negb a) b = negb (xorb a b).
Proof. destruct a, b; reflexivity. Qed.

Lemma mul_neg_l x y : bem_formado x -> mul (neg x) y = neg (mul x y).
Proof.
  intro H. destruct x as [| a | a | a]; destruct y as [| b | b | b];
    cbn [mul neg sgn]; rewrite ?(Qsign_opp a H), ?xorb_negb_l; try reflexivity.
  rewrite <- mk_opp. apply mk_Qeq. ring.
Qed.

Lemma div_neg_l x y : bem_formado x -> div (neg x) y = neg (div x y).
Proof.
  intro H. destruct x as [| a | a | a]; destruct y as [| b | b | b];
    cbn [div neg sgn]; rewrite ?(Qsign_opp a H), ?xorb_negb_l; try reflexivity.
  rewrite <- mk_opp. apply mk_Qeq. unfold Qdiv. ring.
Qed.

Lemma bem_formado_mul x y : bem_formado (mul x y).
Proof.
  destruct x, y; simpl; try exact I. apply bem_formado_mk.
Qed.

Lemma bem_formado_div x y : bem_formado (div x y).
Proof.
  destruct x, y; simpl; try exact I. apply bem_formado_mk.
Qed.

Lemma prestacao_neg x y p :
  bem_formado x ->
  Calcular_PrestacaoMensal (neg x) y p = neg (Calcular_PrestacaoMensal x y p) /\
  Calcular_ValorPago (neg x) y p = neg (Calcular_ValorPago x y p).
Proof.
  intro H. unfold Calcular_ValorPago, Calcular_PrestacaoMensal.
  rewrite (mul_neg_l x y H), (div_neg_l _ _ (bem_formado_mul x y)).
  split; [reflexivity |].
  apply mul_neg_l. apply bem_formado_div.
Qed.

(** With zero periods the denominator is [1 - 1]. *)
Lemma prestacao_zero_periodos x y :
  Calcular_PrestacaoMensal x y 0 = NaN \/
  exists s : bool, Calcular_PrestacaoMensal x y 0 = Inf s.
Proof.
  unfold Calcular_PrestacaoMensal.
  change (sub (Fin 1) (Math_pow (add (Fin 1) y) (- 0))) with (Zero false).
  destruct (mul x y); simpl; eauto.
Qed.

Lemma prestacao_principal_zero s y p :
  Calcular_PrestacaoMensal (Zero s) y p = NaN \/
  exists s', Calcular_PrestacaoMensal (Zero s) y p = Zero s'.
Proof.
  unfold Calcular_PrestacaoMensal.
  destruct y as [| b | b | b]; simpl mul.
  - left. reflexivity.
  - left. reflexivity.
  - destruct (sub (Fin 1) (Math_pow (add (Fin 1) (Zero b)) (- p))); simpl; eauto.
  - destruct (sub (Fin 1) (Math_pow (add (Fin 1) (Fin b)) (- p))); simpl; eauto.
Qed.

(** C5 (as amended): no operation checks its arguments or reports
    InvalidInput.  A NaN principal (a NaN rate for the coefficient) comes
    back as NaN from the installment, the total paid, the coefficient and
    the balance of every row of the schedule, and as the rate 10 from the
    Newton solver.  A negative principal gives the installment and the
    total paid of the positive one with the sign changed; a zero principal
    gives a zero or NaN; zero periods give a division by [1 - 1], that is
    NaN or an infinity. *)
Theorem C5_sem_validacao :
  (forall t p, Calcular_PrestacaoMensal NaN t p = NaN /\
               Calcular_ValorPago NaN t p = NaN) /\
  (forall p, Calcular_CoeficienteFinanciamento NaN p = NaN) /\
  (forall p vp,
     MainJs.Calcular_TaxaReal_MetodoNewton NaN p vp = Some (Number (Fin 10))) /\
  (forall checked t p l,
     In l (fst (MainJs.schedule checked NaN t p)) -> saldoDevedor l = NaN) /\
  (forall (vf : Q) (t : num) (p : Z),
     Calcular_PrestacaoMensal (neg (ofQ vf)) t p
       = neg (Calcular_PrestacaoMensal (ofQ vf) t p) /\
     Calcular_ValorPago (neg (ofQ vf)) t p = neg (Calcular_ValorPago (ofQ vf) t p)) /\
  (forall (s : bool) (t : num) (p : Z),
     Calcular_PrestacaoMensal (Zero s) t p = NaN \/
     exists s' : bool, Calcular_PrestacaoMensal (Zero s) t p = Zero s') /\
  (forall vf t : num,
     Calcular_PrestacaoMensal vf t 0 = NaN \/
     exists s : bool, Calcular_PrestacaoMensal vf t 0 = Inf s).
Proof.
  split; [intros t p; split; reflexivity |].
  split; [intro p; reflexivity |].
  split.
  { intros p vp. unfold MainJs.Calcular_TaxaReal_MetodoNewton.
    destruct (newton_NaN NaN p vp (or_introl eq_refl)) as [_ E].
    rewrite E. reflexivity. }
  split.
  { intros checked t p l. unfold MainJs.schedule. destruct checked.
    - pose proof (amortizar_NaN 0 t (Calcular_PrestacaoMensal NaN t p)
                    (MainJs.mkEstado NaN (Zero false) (Zero false) (Zero false))
                    eq_refl) as [_ H].
      destruct (MainJs.amortizar 0 t (Calcular_PrestacaoMensal NaN t p)
                  (MainJs.mkEstado NaN (Zero false) (Zero false) (Zero false)))
        as [l0 s1].
      apply schedule_loop_NaN. exact H.
    - apply schedule_loop_NaN. reflexivity. }
  split; [intros vf t p; apply prestacao_neg; apply bem_formado_mk |].
  split; [intros s t p; apply prestacao_principal_zero |].
  intros vf t. apply prestacao_zero_periodos.
Qed.

Lemma C5_sem_validacao_witness :
  saldoDevedor (hd linha_vazia (fst (MainJs.schedule false NaN (ofQ 1) 2))) = NaN.
Proof.
  destruct C5_sem_validacao as [_ [_ [_ [H _]]]].
  apply (H false (ofQ 1) 2%Z). vm_compute. left. reflexivity.
Defined.

(** C5, counterexample: a negative principal, a rate below -1, zero periods
    and a NaN principal all give a result and no error: -2000, -2000,
    Infinity, NaN, and the rate 10 from the Newton solver. *)
Lemma C5_entrada_invalida_counterexample :
  Calcular_PrestacaoMensal (ofQ (-1000)) (ofQ 1) 1 = Fin (-2000) /\
  Calcular_PrestacaoMensal (ofQ 1000) (ofQ (-3)) 1 = Fin (-2000) /\
  Calcular_PrestacaoMensal (ofQ 1000) (ofQ 1) 0 = Inf false /\
  Calcular_PrestacaoMensal NaN (ofQ 1) 1 = NaN /\
  Calcular_ValorPago (ofQ (-1000)) (ofQ 1) 1 = Fin (-2000) /\
  Calcular_CoeficienteFinanciamento (ofQ 1) 0 = Inf false /\
  MainJs.Calcular_TaxaReal_MetodoNewton NaN 1 (ofQ 1100) = Some (Number (Fin 10)).
Proof. repeat split; vm_compute; reflexivity. Qed.

(** * The effective rate *)

(** What main.js's solver returns on any input: it always returns; null
    exactly when the errors of rounds 0 to 1000 all pass the guard; and a
    number only as 100 times the first estimate whose error fails it. *)
Lemma taxa_real_resultado (vf : num) (p : Z) (vp : num) :
  (exists v, MainJs.Calcular_TaxaReal_MetodoNewton vf p vp = Some v) /\
  (MainJs.Calcular_TaxaReal_MetodoNewton vf p vp = Some Null <->
   forall i : nat, (i <= 1000)%nat -> guarda (erro_n vf p vp i) = true) /\
  (forall x : num,
     MainJs.Calcular_TaxaReal_MetodoNewton vf p vp = Some (Number x) ->
     exists k : nat,
       (k <= 1000)%nat /\
       x = mul (estimativa_n vf p vp k) (Fin 100) /\
       guarda (erro_n vf p vp k) = false /\
       forall i : nat, (i < k)%nat -> guarda (erro_n vf p vp i) = true).
Proof.
  unfold MainJs.Calcular_TaxaReal_MetodoNewton.
  pose proof (newton_post vf p vp) as P.
  pose proof (newton_nao_converge vf p vp) as N.
  destruct (newton vf p vp) as [[e it | it] |]; simpl in P; [| | contradiction].
  - destruct P as [j [Hj [_ [He [Hg Hall]]]]]. split; [eexists; reflexivity |]. split.
    + split; [discriminate |]. intro A. specialize (N A). discriminate N.
    + intros x H. injection H as <-. subst e.
      exists j. repeat split; try assumption; try lia.
      intros i Hi. apply Hall. lia.
  - destruct P as [_ Hall]. split; [eexists; reflexivity |]. split.
    + split; [| reflexivity]. intros _ i Hi. apply Hall. lia.
    + intros x H. discriminate H.
Qed.



(** The equation has a real root in (-1, 0) whenever the total paid is
    below the principal: [(totalPaid / principal)^(1/periods) - 1]. *)
Lemma raiz_real (F P : Q) (n : Z) :
  (0 < P)%Q -> (P < F)%Q -> (1 <= n)%Z ->
  exists r : R,
    r = (Rpower (Q2R P / Q2R F) (/ INR (Z.to_nat n)) - 1)%R /\
    (-1 < r)%R /\ (r < 0)%R /\ (Q2R F = Q2R P / (1 + r) ^ Z.to_nat n)%R.
Proof.
  intros HP HPF Hn.
  apply Qlt_Rlt in HP. apply Qlt_Rlt in HPF.
  replace (Q2R 0) with 0%R in HP by (unfold Q2R; simpl; Lra.lra).
  set (f := Q2R F) in *. set (c := Q2R P) in *.
  set (m := Z.to_nat n).
  assert (Hm : (0 < INR m)%R) by (apply lt_0_INR; unfold m; lia).
  set (q := (c / f)%R).
  assert (Hq0 : (0 < q)%R) by (unfold q; apply Rdiv_lt_0_compat; Lra.lra).
  assert (Hq1 : (q < 1)%R).
  { unfold q. apply (Rmult_lt_reg_r f); [Lra.lra |].
    unfold Rdiv. rewrite Rmult_assoc, Rinv_l by Lra.lra. Lra.lra. }
  set (u := Rpower q (/ INR m)).
  assert (Hu0 : (0 < u)%R) by (unfold u, Rpower; apply exp_pos).
  assert (Hu1 : (u < 1)%R).
  { unfold u, Rpower. rewrite <- exp_0. apply exp_increasing.
    assert (L : (ln q < 0)%R) by (rewrite <- ln_1; apply ln_increasing; Lra.lra).
    assert (I : (0 < / INR m)%R) by (apply Rinv_0_lt_compat; exact Hm).
    rewrite <- (Rmult_0_r (/ INR m)). apply Rmult_lt_compat_l; assumption. }
  assert (Hpow : (u ^ m = q)%R).
  { rewrite <- Rpower_pow by exact Hu0. unfold u.
    rewrite Rpower_mult, Rinv_l by Lra.lra. apply Rpower_1. exact Hq0. }
  exists (u - 1)%R. split; [reflexivity |]. split; [Lra.lra |]. split; [Lra.lra |].
  replace (1 + (u - 1))%R with u by Lra.lra.
  fold m. rewrite Hpow. unfold q. field. split; Lra.lra.
Qed.

(** Every real solution above -1 is negative when the total paid is below
    the principal. *)
Lemma raiz_negativa (F P : Q) (m : nat) (r : R) :
  (0 < P)%Q -> (P < F)%Q -> (-1 < r)%R ->
  (Q2R F = Q2R P / (1 + r) ^ m)%R -> (r < 0)%R.
Proof.
  intros HP HPF Hr E.
  apply Qlt_Rlt in HP. apply Qlt_Rlt in HPF.
  replace (Q2R 0) with 0%R in HP by (unfold Q2R; simpl; Lra.lra).
  destruct (Rlt_le_dec r 0) as [L | L]; [exact L | exfalso].
  assert (A : (1 <= (1 + r) ^ m)%R) by (apply pow_R1_Rle; Lra.lra).
  assert (M : (Q2R P = Q2R F * (1 + r) ^ m)%R) by (rewrite E; field; Lra.lra).
  assert (B : (Q2R F * 1 <= Q2R F * (1 + r) ^ m)%R)
    by (apply Rmult_le_compat_l; Lra.lra).
  Lra.lra.
Qed.

(** C7 (as amended): when 0 < totalPaid < principal and periods >= 1, the
    equation principal = totalPaid / (1+rate)^periods has a real solution
    in (-1, 0), namely (totalPaid / principal)^(1/periods) - 1, and every
    real solution above -1 is negative.  The solver
    has no test for this case: as on any input it returns null exactly when
    the errors of rounds 0 to 1000 all exceed the tolerance, and otherwise
    100 times the first estimate whose error does not. *)
Theorem C7_raiz_negativa_e_resultado (F P : Q) (n : Z) :
  0 < P -> P < F -> (1 <= n)%Z ->
  (exists r : R,
     r = (Rpower (Q2R P / Q2R F) (/ INR (Z.to_nat n)) - 1)%R /\
     (-1 < r)%R /\ (r < 0)%R /\ (Q2R F = Q2R P / (1 + r) ^ Z.to_nat n)%R) /\
  (forall r : R,
     (-1 < r)%R -> (Q2R F = Q2R P / (1 + r) ^ Z.to_nat n)%R -> (r < 0)%R) /\
  (exists v, MainJs.Calcular_TaxaReal_MetodoNewton (ofQ F) n (ofQ P) = Some v) /\
  (MainJs.Calcular_TaxaReal_MetodoNewton (ofQ F) n (ofQ P) = Some Null <->
   forall i : nat, (i <= 1000)%nat -> guarda (erro_n (ofQ F) n (ofQ P) i) = true) /\
  (forall x : num,
     MainJs.Calcular_TaxaReal_MetodoNewton (ofQ F) n (ofQ P) = Some (Number x) ->
     exists k : nat,
       (k <= 1000)%nat /\
       x = mul (estimativa_n (ofQ F) n (ofQ P) k) (Fin 100) /\
       guarda (erro_n (ofQ F) n (ofQ P) k) = false /\
       forall i : nat, (i < k)%nat -> guarda (erro_n (ofQ F) n (ofQ P) i) = true).
Proof.
  intros HP HPF Hn.
  split; [apply raiz_real; assumption |].
  split; [intros r Hr E; apply (raiz_negativa F P (Z.to_nat n) r); assumption |].
  apply taxa_real_resultado.
Qed.

Lemma C7_raiz_negativa_e_resultado_witness :
  (exists r : R,
     r = (Rpower (Q2R 4 / Q2R 5) (/ INR (Z.to_nat 1)) - 1)%R /\
     (-1 < r)%R /\ (r < 0)%R /\ (Q2R 5 = Q2R 4 / (1 + r) ^ Z.to_nat 1)%R) /\
  (forall r : R,
     (-1 < r)%R -> (Q2R 5 = Q2R 4 / (1 + r) ^ Z.to_nat 1)%R -> (r < 0)%R) /\
  (exists v, MainJs.Calcular_TaxaReal_MetodoNewton (ofQ 5) 1 (ofQ 4) = Some v) /\
  (MainJs.Calcular_TaxaReal_MetodoNewton (ofQ 5) 1 (ofQ 4) = Some Null <->
   forall i : nat, (i <= 1000)%nat -> guarda (erro_n (ofQ 5) 1 (ofQ 4) i) = true) /\
  (forall x : num,
     MainJs.Calcular_TaxaReal_MetodoNewton (ofQ 5) 1 (ofQ 4) = Some (Number x) ->
     exists k : nat,
       (k <= 1000)%nat /\
       x = mul (estimativa_n (ofQ 5) 1 (ofQ 4) k) (Fin 100) /\
       guarda (erro_n (ofQ 5) 1 (ofQ 4) k) = false /\
       forall i : nat, (i < k)%nat -> guarda (erro_n (ofQ 5) 1 (ofQ 4) i) = true).
Proof.
  apply (C7_raiz_negativa_e_resultado 5 4 1); [reflexivity | reflexivity | lia].
Defined.

(** C7, counterexample: with a principal of 5, a total paid of 4 and one
    period, the rate -1/5 solves the equation, and the solver returns a
    number, about -20, after four rounds. *)
Lemma C7_solucao_negativa_counterexample :
  -1 < - (1 # 5) /\
  5 == 4 / (1 + - (1 # 5)) ^ 1 /\
  exists x : Q,
    MainJs.Calcular_TaxaReal_MetodoNewton (ofQ 5) 1 (ofQ 4) = Some (Number (Fin x)) /\
    -20 - (1 # 1000) < x /\ x < -20 + (1 # 1000).
Proof.
  split; [reflexivity |]. split; [reflexivity |].
  eexists. split; [vm_compute; reflexivity |].
  split; vm_compute; reflexivity.
Qed.

(** * The worked scenario: 10000 at 2% over 12 periods *)

Example cenario_prestacao :
  exists q : Q,
    Calcular_PrestacaoMensal (ofQ 10000) (ofQ (2 # 100)) 12 = Fin q /\
    (94559 # 100) < q /\ q < (94560 # 100).
Proof.
  eexists. split; [vm_compute; reflexivity |].
  split; vm_compute; reflexivity.
Qed.

Example cenario_primeira_linha :
  exists (a s : Q) (resto : list linha),
    fst (MainJs.schedule false (ofQ 10000) (ofQ (2 # 100)) 12)
      = mkLinha 1 (Calcular_PrestacaoMensal (ofQ 10000) (ofQ (2 # 100)) 12)
                (Fin 200) (Fin a) (Fin s) :: resto /\
    (74559 # 100) < a /\ a < (74560 # 100) /\
    (925440 # 100) < s /\ s < (925441 # 100) /\
    length resto = 11%nat.
Proof.
  do 3 eexists. split; [vm_compute; reflexivity |].
  repeat split; vm_compute; reflexivity.
Qed.

(** * The financing coefficient *)

Lemma represents_pos_Fin x a : represents x a -> 0 < a -> exists q, x = Fin q /\ 0 < q.
Proof.
  destruct x; simpl; try tauto.
  - intros H L. rewrite H in L. discriminate L.
  - intros [H _] L. exists q. split; [reflexivity | rewrite H; exact L].
Qed.

Lemma Qsign_pos q : 0 < q -> Qsign q = false.
Proof.
  intro H. unfold Qsign. apply negb_false_iff. apply Qle_bool_iff. lra.
Qed.

(** X2: the coefficient has no guard either: at rate 0 it is 0/0 = NaN for
    every period count, and with zero periods and a positive rate it is
    t/0 = Infinity. *)
Theorem X2_coeficiente_sem_guarda :
  (forall p : Z, Calcular_CoeficienteFinanciamento (ofQ 0) p = NaN) /\
  (forall t : Q, 0 < t -> Calcular_CoeficienteFinanciamento (ofQ t) 0 = Inf false).
Proof.
  split.
  - intro p. unfold Calcular_CoeficienteFinanciamento.
    assert (Hpw : represents (Math_pow (add (Fin 1) (ofQ 0)) p) ((1 + 0) ^ p))
      by (apply represents_pow; [auto with repr | discriminate]).
    assert (E : (1 + 0) ^ p == 1) by (assert (E : 1 + 0 == 1) by ring; rewrite E; apply Qpower_1).
    assert (Hn : represents (mul (ofQ 0) (Math_pow (add (Fin 1) (ofQ 0)) p)) 0).
    { apply represents_Qeq with (a := 0 * (1 + 0) ^ p); [auto with repr | ring]. }
    assert (Hd : represents (sub (Math_pow (add (Fin 1) (ofQ 0)) p) (Fin 1)) 0).
    { apply represents_Qeq with (a := (1 + 0) ^ p - 1); [auto with repr | lra]. }
    destruct (represents_zero _ _ Hn ltac:(reflexivity)) as [s Es].
    destruct (represents_zero _ _ Hd ltac:(reflexivity)) as [s' Es'].
    rewrite Es, Es'. reflexivity.
  - intros t Ht. unfold Calcular_CoeficienteFinanciamento.
    change (Math_pow (add (Fin 1) (ofQ t)) 0) with (Fin 1).
    assert (Hm : represents (mul (ofQ t) (Fin 1)) (t * 1)) by auto with repr.
    destruct (represents_pos_Fin _ _ Hm ltac:(lra)) as [q [Eq Hq]].
    rewrite Eq. cbn. rewrite (Qsign_pos q Hq). reflexivity.
Qed.

(** * The two modes of main.js and the table of part_000 *)

Lemma amortizar_deslocar d i t pr s :
  MainJs.amortizar (i + d) t pr s
  = (deslocar d (fst (MainJs.amortizar i t pr s)), snd (MainJs.amortizar i t pr s)).
Proof. reflexivity. Qed.

Lemma schedule_loop_deslocar d idx t pr s :
  MainJs.schedule_loop (map (fun i => (i + d)%Z) idx) t pr s
  = (map (deslocar d) (fst (MainJs.schedule_loop idx t pr s)),
     snd (MainJs.schedule_loop idx t pr s)).
Proof.
  revert s. induction idx as [| i idx IH]; intro s; [reflexivity |].
  cbn [map MainJs.schedule_loop]. rewrite amortizar_deslocar.
  destruct (MainJs.amortizar i t pr s) as [l s1]. cbn [fst snd].
  rewrite IH.
  destruct (MainJs.schedule_loop idx t pr s1) as [ls s2].
  reflexivity.
Qed.

Lemma indices_succ p :
  (1 <= p)%Z -> indices p = 1%Z :: map (fun i => (i + 1)%Z) (indices (p - 1)).
Proof.
  intro Hp. unfold indices.
  replace (Z.to_nat p) with (S (Z.to_nat (p - 1))) by lia.
  cbn [seq map]. f_equal.
  rewrite <- seq_shift, !map_map. apply map_ext.
  intro a. lia.
Qed.

(** X6: for periods >= 1 and any numbers, the down-payment mode of main.js
    shows the rows of the plain mode without the first one, numbered one
    lower, and ends with the same totals. *)
Theorem X6_entrada_e_primeira_linha (vf t : num) (p : Z) :
  (1 <= p)%Z ->
  fst (MainJs.schedule false vf t p)
  = fst (MainJs.amortizar 1 t (Calcular_PrestacaoMensal vf t p)
           (MainJs.mkEstado vf (Zero false) (Zero false) (Zero false)))
    :: map (deslocar 1) (fst (MainJs.schedule true vf t p)) /\
  snd (MainJs.schedule false vf t p) = snd (MainJs.schedule true vf t p).
Proof.
  intro Hp. unfold MainJs.schedule. rewrite (indices_succ p Hp).
  cbn [MainJs.schedule_loop]. unfold MainJs.amortizar. cbv beta iota zeta.
  rewrite schedule_loop_deslocar.
  match goal with
  | |- context [MainJs.schedule_loop (indices (p - 1)) ?a ?b ?c] =>
      destruct (MainJs.schedule_loop (indices (p - 1)) a b c) as [ls s2]
  end.
  split; reflexivity.
Qed.

Lemma X6_entrada_e_primeira_linha_witness :
  fst (MainJs.schedule false (ofQ 1000) (ofQ (1 # 2)) 2)
  = fst (MainJs.amortizar 1 (ofQ (1 # 2))
           (Calcular_PrestacaoMensal (ofQ 1000) (ofQ (1 # 2)) 2)
           (MainJs.mkEstado (ofQ 1000) (Zero false) (Zero false) (Zero false)))
    :: map (deslocar 1) (fst (MainJs.schedule true (ofQ 1000) (ofQ (1 # 2)) 2)) /\
  snd (MainJs.schedule false (ofQ 1000) (ofQ (1 # 2)) 2)
  = snd (MainJs.schedule true (ofQ 1000) (ofQ (1 # 2)) 2).
Proof.
  apply (X6_entrada_e_primeira_linha (ofQ 1000) (ofQ (1 # 2)) 2). lia.
Defined.

Lemma schedule_loop_fechar idx vf t p :
  forall s,
  fst (MainJs.schedule_loop idx t (Calcular_PrestacaoMensal vf t p) s)
  = map fechar (Part000.tabela_loop idx vf t p (MainJs.valorFinanciado s)).
Proof.
  induction idx as [| i idx IH]; intro s; [reflexivity |].
  cbn [MainJs.schedule_loop Part000.tabela_loop map].
  unfold MainJs.amortizar.
  specialize (IH (MainJs.mkEstado
                    (sub (MainJs.valorFinanciado s)
                         (sub (Calcular_PrestacaoMensal vf t p)
                              (mul (MainJs.valorFinanciado s) t)))
                    (add (MainJs.pt s) (Calcular_PrestacaoMensal vf t p))
                    (add (MainJs.jt s) (mul (MainJs.valorFinanciado s) t))
                    (add (MainJs.at_ s)
                         (sub (Calcular_PrestacaoMensal vf t p)
                              (mul (MainJs.valorFinanciado s) t))))).
  destruct (MainJs.schedule_loop idx t (Calcular_PrestacaoMensal vf t p) _) as [ls s2].
  cbn [fst MainJs.valorFinanciado] in IH |- *. rewrite IH. reflexivity.
Qed.

Lemma tabela_loop_firstn n idx vf t p :
  forall s,
  firstn n (Part000.tabela_loop idx vf t p s)
  = Part000.tabela_loop (firstn n idx) vf t p s.
Proof.
  revert n. induction idx as [| i idx IH]; intros n s.
  - destruct n; reflexivity.
  - destruct n as [| n]; [reflexivity |].
    cbn [firstn Part000.tabela_loop]. rewrite IH. reflexivity.
Qed.

Lemma firstn_seq_min n : forall a m, firstn n (seq a m) = seq a (Nat.min n m).
Proof.
  induction n as [| n IH]; intros a m; [reflexivity |].
  destruct m as [| m]; [reflexivity |].
  cbn [seq firstn Nat.min]. rewrite IH. reflexivity.
Qed.

Lemma indices_firstn p q :
  (p <= q)%Z -> firstn (Z.to_nat p) (indices q) = indices p.
Proof.
  intro H. unfold indices. rewrite firstn_map, firstn_seq_min.
  replace (Nat.min (Z.to_nat p) (Z.to_nat q)) with (Z.to_nat p) by lia.
  reflexivity.
Qed.

(** X7: for at most 96 periods and any numbers, the rows of main.js (plain
    mode) are the first [p] rows of part_000's table with the balance
    column taken after the amortization: month, installment, interest and
    amortization agree row by row. *)
Theorem X7_main_e_part000 (vf t : num) (p : Z) :
  (p <= 96)%Z ->
  fst (MainJs.schedule false vf t p)
  = map fechar (firstn (Z.to_nat p) (Part000.calcularTabelaAmortizacao vf t p)).
Proof.
  intro Hp. unfold MainJs.schedule, Part000.calcularTabelaAmortizacao.
  rewrite tabela_loop_firstn, (indices_firstn p Part000.NUMERO_DE_REPETICOES Hp).
  apply schedule_loop_fechar.
Qed.

Lemma X7_main_e_part000_witness :
  fst (MainJs.schedule false (ofQ 1000) (ofQ (1 # 2)) 2)
  = map fechar (firstn (Z.to_nat 2)
                  (Part000.calcularTabelaAmortizacao (ofQ 1000) (ofQ (1 # 2)) 2)).
Proof.
  apply (X7_main_e_part000 (ofQ 1000) (ofQ (1 # 2)) 2). lia.
Defined.

(** * The solver at its edges *)

Lemma erro_de_zero_periodos vf vp est :
  erro_de vf 0 vp est = sub vf (div vp (Fin 1)).
Proof. reflexivity. Qed.


Section NadaPago.

Variables (q : Q) (p : Z).
Hypothesis Hq : (1 # 1000000) < q.
Hypothesis Hp : (1 <= p)%Z.

Lemma p_nao_zero : (p =? 0)%Z = false.
Proof. apply Z.eqb_neq. lia. Qed.

Lemma p_positivo : (0 <? p)%Z = true.
Proof. apply Z.ltb_lt. lia. Qed.

Lemma pow_onze_decimos e :
  exists r, Math_pow (add (Fin 1) estimativa_inicial) e = Fin r /\ 0 < r.
Proof.
  apply represents_pos_Fin with (a := (1 + (1 # 10)) ^ e).
  - apply represents_pow; [| discriminate].
    apply represents_add; [apply represents_one | apply represents_Fin; discriminate].
  - apply Qpower_0_lt. reflexivity.
Qed.

Lemma p_vezes_zero : mul (ofZ p) (Zero false) = Zero false.
Proof.
  destruct (represents_pos_Fin (ofZ p) (inject_Z p) (represents_ofZ p)) as [r [E Hr]].
  { pose proof (inject_Z_pos p Hp). lra. }
  rewrite E. cbn [mul sgn]. rewrite (Qsign_pos r Hr). reflexivity.
Qed.

Lemma guarda_q : guarda (Fin q) = true.
Proof.
  unfold guarda. cbn [Math_abs gt precisao val]. apply negb_true_iff.
  destruct (Qle_bool (Qabs q) (1 # 1000000)) eqn:E; [| reflexivity].
  apply Qle_bool_iff in E. rewrite Qabs_pos in E by lra. lra.
Qed.

Lemma erro_inicial : erro_de (Fin q) p (Zero false) estimativa_inicial = Fin q.
Proof.
  unfold erro_de. destruct (pow_onze_decimos p) as [r [E Hr]]. rewrite E.
  reflexivity.
Qed.

Lemma passo_inicial : passo p (Zero false) estimativa_inicial (Fin q) = Inf true.
Proof.
  unfold passo. rewrite p_vezes_zero.
  destruct (pow_onze_decimos (p + 1)) as [r [E Hr]]. rewrite E.
  cbn [div sub add neg sgn]. rewrite (Qsign_pos r Hr). cbn [xorb div sgn].
  rewrite (Qsign_pos q ltac:(lra)). reflexivity.
Qed.

Lemma erro_menos_infinito : erro_de (Fin q) p (Zero false) (Inf true) = Fin q.
Proof.
  unfold erro_de. cbn [add]. unfold Math_pow. rewrite p_nao_zero, p_positivo.
  destruct (Z.odd p); reflexivity.
Qed.

Lemma passo_menos_infinito :
  passo p (Zero false) (Inf true) (Fin q) = if Z.odd p then Inf true else NaN.
Proof.
  unfold passo. rewrite p_vezes_zero. cbn [add]. unfold Math_pow.
  replace (p + 1 =? 0)%Z with false by (symmetry; apply Z.eqb_neq; lia).
  replace (0 <? p + 1)%Z with true by (symmetry; apply Z.ltb_lt; lia).
  replace (Z.odd (p + 1)) with (negb (Z.odd p))
    by (rewrite Z.add_1_r, Z.odd_succ, <- Z.negb_odd; reflexivity).
  destruct (Z.odd p); cbn [negb andb div sub add neg sgn xorb];
    rewrite (Qsign_pos q ltac:(lra)); reflexivity.
Qed.

Lemma erro_NaN : erro_de (Fin q) p (Zero false) NaN = NaN.
Proof. unfold erro_de. cbn [add]. unfold Math_pow. rewrite p_nao_zero. reflexivity. Qed.

Lemma estimativa_um : estimativa_n (Fin q) p (Zero false) 1 = Inf true.
Proof. cbn [estimativa_n]. rewrite erro_inicial. apply passo_inicial. Qed.

Lemma estimativa_impar (k : nat) :
  Z.odd p = true -> estimativa_n (Fin q) p (Zero false) (S k) = Inf true.
Proof.
  intro Ho. induction k as [| k IH]; [apply estimativa_um |].
  cbn [estimativa_n] in IH |- *. rewrite IH, erro_menos_infinito, passo_menos_infinito, Ho.
  reflexivity.
Qed.

Lemma estimativa_dois_par :
  Z.odd p = false -> estimativa_n (Fin q) p (Zero false) 2 = NaN.
Proof.
  intro He. change (estimativa_n (Fin q) p (Zero false) 2)
    with (passo p (Zero false) (estimativa_n (Fin q) p (Zero false) 1)
            (erro_de (Fin q) p (Zero false) (estimativa_n (Fin q) p (Zero false) 1))).
  rewrite estimativa_um, erro_menos_infinito, passo_menos_infinito, He. reflexivity.
Qed.

Lemma nada_pago_impar :
  Z.odd p = true -> newton (Fin q) p (Zero false) = Some (NaoConvergiu 1001).
Proof.
  intro Ho. apply newton_nao_converge. intros i _. unfold erro_n.
  destruct i as [| i].
  - cbn [estimativa_n]. rewrite erro_inicial. apply guarda_q.
  - rewrite (estimativa_impar i Ho), erro_menos_infinito. apply guarda_q.
Qed.

Lemma nada_pago_par :
  Z.odd p = false -> newton (Fin q) p (Zero false) = Some (Convergiu NaN 2).
Proof.
  intro He.
  assert (G0 : guarda (erro_n (Fin q) p (Zero false) 0) = true)
    by (unfold erro_n; cbn [estimativa_n]; rewrite erro_inicial; apply guarda_q).
  assert (G1 : guarda (erro_n (Fin q) p (Zero false) 1) = true)
    by (unfold erro_n; rewrite estimativa_um, erro_menos_infinito; apply guarda_q).
  assert (G2 : guarda (erro_n (Fin q) p (Zero false) 2) = false)
    by (unfold erro_n; rewrite (estimativa_dois_par He), erro_NaN; reflexivity).
  destruct (newton_converge _ _ _ 2 ltac:(lia) G2) as [j [Hj [E Gj]]].
  assert (j = 2%nat).
  { destruct j as [| [| [| j]]]; [congruence | congruence | reflexivity | lia]. }
  subst j. rewrite E, (estimativa_dois_par He). reflexivity.
Qed.

End NadaPago.

(** X11: with a principal above 1e-6, nothing paid and periods >= 1, the
    estimate is -Infinity after the first round.  For an odd period count it
    stays there and the solver returns null; for an even one the second
    round gives NaN, the guard fails on it, and main.js returns NaN as the
    rate (part_001 its constant). *)
Theorem X11_nada_pago (F : Q) (p : Z) :
  (1 # 1000000) < F -> (1 <= p)%Z ->
  (Z.odd p = true ->
   MainJs.Calcular_TaxaReal_MetodoNewton (ofQ F) p (ofQ 0) = Some Null /\
   Part001.Calcular_TaxaReal_MetodoNewton (ofQ F) p (ofQ 0) = Some Null) /\
  (Z.odd p = false ->
   newton (ofQ F) p (ofQ 0) = Some (Convergiu NaN 2) /\
   MainJs.Calcular_TaxaReal_MetodoNewton (ofQ F) p (ofQ 0) = Some (Number NaN) /\
   Part001.Calcular_TaxaReal_MetodoNewton (ofQ F) p (ofQ 0)
     = Some (Number (Fin (9739 # 2500)))).
Proof.
  intros HF Hp.
  destruct (represents_pos_Fin (ofQ F) F (represents_ofQ F) ltac:(lra)) as [q [E Hq]].
  assert (Hq' : (1 # 1000000) < q).
  { pose proof (represents_ofQ F) as R. rewrite E in R. destruct R as [R _]. lra. }
  change (ofQ 0) with (Zero false). rewrite E.
  unfold MainJs.Calcular_TaxaReal_MetodoNewton, Part001.Calcular_TaxaReal_MetodoNewton.
  split; intro H.
  - rewrite (nada_pago_impar q p Hq' Hp H). split; reflexivity.
  - rewrite (nada_pago_par q p Hq' Hp H). repeat split.
Qed.

Lemma X11_nada_pago_witness :
  (MainJs.Calcular_TaxaReal_MetodoNewton (ofQ 1000) 1 (ofQ 0) = Some Null /\
   Part001.Calcular_TaxaReal_MetodoNewton (ofQ 1000) 1 (ofQ 0) = Some Null) /\
  MainJs.Calcular_TaxaReal_MetodoNewton (ofQ 1000) 12 (ofQ 0) = Some (Number NaN).
Proof.
  split.
  - apply (X11_nada_pago 1000 1); [reflexivity | lia | reflexivity].
  - apply (X11_nada_pago 1000 12); [reflexivity | lia | reflexivity].
Defined.



(** * Binary64: the results where rounding decides *)

Section Binary64.

Import PrimFloat FloatOps FloatAxioms.
#[local] Open Scope float_scope.
#[local] Set Warnings "-inexact-float".

(** A division by zero gives NaN or an infinity. *)
Lemma sobre_zero (x : float) :
  x / 0 = nan \/ x / 0 = infinity \/ x / 0 = neg_infinity.
Proof.
  rewrite <- (SF2Prim_Prim2SF (x / 0)), div_spec.
  destruct (Prim2SF x) as [s | s | | s m e]; try destruct s; vm_compute; auto.
Qed.

(** [x * 0 / 0] is NaN whatever [x] is. *)
Lemma zero_sobre_zero (x : float) : x * 0 / 0 = nan.
Proof.
  rewrite <- (SF2Prim_Prim2SF (x * 0 / 0)), div_spec, mul_spec.
  destruct (Prim2SF x) as [s | s | | s m e]; try destruct s; vm_compute; reflexivity.
Qed.

(** In binary64 too the installment at rate 0 is NaN, for every principal
    and every period count. *)
Lemma prestacao_binary64_taxa_zero (vf : float) (p : Z) :
  B64.Calcular_PrestacaoMensal vf 0 p = Some nan.
Proof.
  unfold B64.Calcular_PrestacaoMensal, B64.Math_pow.
  change (1 + 0 =? 1) with true. cbv iota.
  change (1 - 1) with 0. rewrite zero_sobre_zero. reflexivity.
Qed.

(** A rate so small that [1 + t] is 1 (below 2^-53 in absolute value) gives
    [(vf * t) / 0], an infinity or NaN, and not the value of the formula. *)
Lemma prestacao_binary64_taxa_minuscula (vf t : float) (p : Z) :
  (1 + t =? 1) = true ->
  B64.Calcular_PrestacaoMensal vf t p = Some (vf * t / 0) /\
  (vf * t / 0 = nan \/ vf * t / 0 = infinity \/ vf * t / 0 = neg_infinity).
Proof.
  intro H. unfold B64.Calcular_PrestacaoMensal, B64.Math_pow. rewrite H.
  split; [reflexivity | apply sobre_zero].
Qed.

(** X14: in binary64 the installment has no guard for a rate that is zero
    or vanishes beside 1.  At rate 0 it is NaN for every principal and
    every period count; at every rate [t] for which [1 + t] is 1 it is
    [(vf * t) / 0], NaN or an infinity. *)
Theorem X14_prestacao_binary64_sem_guarda :
  (forall (vf : float) (p : Z), B64.Calcular_PrestacaoMensal vf 0 p = Some nan) /\
  (forall (vf t : float) (p : Z),
     (1 + t =? 1) = true ->
     B64.Calcular_PrestacaoMensal vf t p = Some (vf * t / 0) /\
     (vf * t / 0 = nan \/ vf * t / 0 = infinity \/ vf * t / 0 = neg_infinity)).
Proof.
  split; [exact prestacao_binary64_taxa_zero | exact prestacao_binary64_taxa_minuscula].
Qed.

Lemma X14_prestacao_binary64_sem_guarda_witness :
  B64.Calcular_PrestacaoMensal 1000 0x1p-60 12 = Some (1000 * 0x1p-60 / 0) /\
  (1000 * 0x1p-60 / 0 = nan \/ 1000 * 0x1p-60 / 0 = infinity
   \/ 1000 * 0x1p-60 / 0 = neg_infinity).
Proof.
  destruct X14_prestacao_binary64_sem_guarda as [_ H].
  apply (H 1000 0x1p-60 12%Z). vm_compute. reflexivity.
Defined.

(** The installment at inputs where rounding, overflow or underflow
    decide: rate 2^-60 (Infinity, -Infinity for a negative principal), a
    product that underflows with zero periods (NaN); and at inputs where
    every operation is exact. *)
Lemma prestacao_binary64_exemplos :
  B64.Calcular_PrestacaoMensal 1000 0x1p-60 12 = Some infinity /\
  B64.Calcular_PrestacaoMensal (-1000) 0x1p-60 1 = Some neg_infinity /\
  B64.Calcular_PrestacaoMensal 1e-200 1e-200 0 = Some nan /\
  B64.Calcular_PrestacaoMensal 1000 1 0 = Some infinity /\
  B64.Calcular_PrestacaoMensal (-1000) 1 1 = Some (-2000) /\
  B64.Calcular_PrestacaoMensal 1000 (-3) 1 = Some (-2000).
Proof. repeat split; vm_compute; reflexivity. Qed.

(** The solver of main.js in binary64.  With a total paid below the
    principal it returns about -20 for (5, 1, 4), and null, after 1001
    rounds, for (5, 1, 2) and for (1e10, 1, 9e9), where the error settles
    above the tolerance. *)
Lemma taxa_real_binary64 :
  (exists x : float,
     B64.Calcular_TaxaReal_MetodoNewton 5 1 4 = Some (B64.Number x) /\
     (-20.001 <? x) = true /\ (x <? -19.999) = true) /\
  B64.newton 5 1 2 = Some (B64.NaoConvergiu 1001) /\
  B64.Calcular_TaxaReal_MetodoNewton 5 1 2 = Some B64.Null /\
  B64.newton 1e10 1 9e9 = Some (B64.NaoConvergiu 1001) /\
  B64.Calcular_TaxaReal_MetodoNewton 1e10 1 9e9 = Some B64.Null.
Proof.
  split; [eexists; split; [vm_compute; reflexivity | split; vm_compute; reflexivity] |].
  repeat split; vm_compute; reflexivity.
Qed.

(** The solver run on the total paid of a one-period loan, in binary64: 10
    for 1000 at 10%, 10 at once for a principal of 1e-7 at 40%, and null
    for a principal of 1e11 at 6.25%, where one unit in the last place of
    the quotient is above the tolerance. *)
Lemma ida_e_volta_binary64 :
  (exists vp : float,
     B64.Calcular_ValorPago 1000 0.1 1 = Some vp /\
     B64.Calcular_TaxaReal_MetodoNewton 1000 1 vp = Some (B64.Number 10)) /\
  (exists vp : float,
     B64.Calcular_ValorPago 1e-7 0.4 1 = Some vp /\
     B64.newton 1e-7 1 vp = Some (B64.Convergiu 0.1 0) /\
     B64.Calcular_TaxaReal_MetodoNewton 1e-7 1 vp = Some (B64.Number 10)) /\
  (exists vp : float,
     B64.Calcular_ValorPago 1e11 0.0625 1 = Some vp /\
     B64.newton 1e11 1 vp = Some (B64.NaoConvergiu 1001) /\
     B64.Calcular_TaxaReal_MetodoNewton 1e11 1 vp = Some B64.Null).
Proof.
  repeat split; eexists; (split; [vm_compute; reflexivity |]);
    repeat split; vm_compute; reflexivity.
Qed.

(** The binary64 run for 1000 at 10% over one period is one of the rounded
    runs, so its total is at least the principal and its installment is
    within the bound of the exact one. *)
Lemma X15_total_arredondado_ge_principal_witness :
  B64.Calcular_ValorPago 1000 0.1 1 = Some (1000 * 0.1 / (1 - 1 / (1 + 0.1)) * 1) /\
  (B64.valor 1000 <= B64.valor (1000 * 0.1 / (1 - 1 / (1 + 0.1)) * 1))%Q.
Proof.
  split; [vm_compute; reflexivity |].
  apply (X15_total_arredondado_ge_principal (B64.valor 1000) (B64.valor 0.1) _ 1).
  - reflexivity.
  - vm_compute. discriminate.
  - lia.
  - exists (B64.valor (1000 * 0.1 / (1 - 1 / (1 + 0.1)))). split.
    + exists (B64.valor (1 + 0.1)), (B64.valor (1 / (1 + 0.1))),
        (B64.valor (1 - 1 / (1 + 0.1))), (B64.valor (1000 * 0.1)).
      unfold arredonda. repeat split; vm_compute; discriminate.
    + unfold arredonda. vm_compute. discriminate.
Defined.

Lemma X16_prestacao_arredondada_perto_da_exata_witness :
  B64.Calcular_PrestacaoMensal 1000 0.1 1 = Some (1000 * 0.1 / (1 - 1 / (1 + 0.1))) /\
  (Qabs (B64.valor (1000 * 0.1 / (1 - 1 / (1 + 0.1)))
         - prestacao_exata (B64.valor 1000) (B64.valor 0.1) 1)
   <= 9 * eps64 / B64.valor 0.1 * prestacao_exata (B64.valor 1000) (B64.valor 0.1) 1)%Q.
Proof.
  split; [vm_compute; reflexivity |].
  apply (X16_prestacao_arredondada_perto_da_exata (B64.valor 1000) (B64.valor 0.1) _ 1).
  - reflexivity.
  - vm_compute. discriminate.
  - vm_compute. discriminate.
  - lia.
  - exists (B64.valor (1 + 0.1)), (B64.valor (1 / (1 + 0.1))),
      (B64.valor (1 - 1 / (1 + 0.1))), (B64.valor (1000 * 0.1)).
    unfold arredonda. repeat split; vm_compute; discriminate.
Defined.

(** C9, counterexample: for a principal of 1000 at the rate 7 * 2^-53 over
    one period, [1 + t] rounds to 1 + 2^-50, [1 - 1 / (1 + t)] is 2^-50,
    and the installment and the total paid are 7000 * 2^-53 / 2^-50 = 875,
    below the principal. *)
Lemma C9_total_abaixo_do_principal_counterexample :
  (0 <? 0x7p-53) = true /\ (0x7p-53 <? 1) = true /\
  1 + 0x7p-53 = 1 + 0x1p-50 /\
  B64.Calcular_PrestacaoMensal 1000 0x7p-53 1 = Some 875 /\
  B64.Calcular_ValorPago 1000 0x7p-53 1 = Some 875 /\
  (1000 <=? 875) = false.
Proof. repeat split; vm_compute; reflexivity. Qed.

End Binary64.
